(** * CARAT allocation relocation (src/aspace/carat/port-runtime/c/patching.c)

    A shallow embedding of the relocation core of the CARAT runtime:
    the escape patch pass, the thread register patch pass, the directory
    update and the orchestrator [nk_carat_move_allocation], together with
    the properties its specification states about them. *)

From stdpp Require Import gmap list.
From Stdlib Require Import ZArith Lia Bool.

Local Open Scope Z_scope.

(** ** Machine integers *)

(** Values of [uint64_t], [uintptr_t] and [void*] are integers in
    [0, 2^64); arithmetic on them wraps. *)
Definition wrap64 (x : Z) : Z := x mod 2^64.

(** The cast [(int64_t) x] of a 64-bit pattern: two's complement. *)
Definition to_int64 (x : Z) : Z := (x + 2^63) mod 2^64 - 2^63.

(** A block [base, base+len) that lies inside the 64-bit address space. *)
Definition addressable (base len : Z) : Prop :=
  0 <= base /\ 0 <= len /\ base + len < 2^64.

(** ** Byte-addressed memory *)

Definition memory := Z -> Z.

Fixpoint load_bytes (m : memory) (a : Z) (n : nat) : list Z :=
  match n with
  | O => []
  | S k => m a :: load_bytes m (a + 1) k
  end.

Fixpoint le_decode (bs : list Z) : Z :=
  match bs with
  | [] => 0
  | b :: r => b + 256 * le_decode r
  end.

Definition byte_of (v i : Z) : Z := (v / 256 ^ i) mod 256.

(** [*(void** ) a]: the pointer-sized little-endian value at [a]. *)
Definition load64 (m : memory) (a : Z) : Z := le_decode (load_bytes m a 8).

(** [*(void** ) a = v]. *)
Definition store64 (m : memory) (a v : Z) : memory :=
  fun x => if (a <=? x) && (x <? a + 8) then byte_of v (x - a) else m x.

(** [memmove(dest, src, n)] of the C library: the [n] bytes that were at
    [src] are at [dest] afterwards, also when the two ranges overlap. *)
Definition memmove (m : memory) (dest src n : Z) : memory :=
  fun x => if (dest <=? x) && (x <? dest + n) then m (src + (x - dest)) else m x.

(** Pointer-sized slots that share no byte, pairwise. *)
Fixpoint slots_disjoint (l : list Z) : bool :=
  match l with
  | [] => true
  | a :: r => forallb (fun b => (a + 8 <=? b) || (b + 8 <=? a)) r && slots_disjoint r
  end.

(** ** The allocation table *)

(** [allocEntry]: the tracking record of one allocation.  The escapes are
    kept in the order in which [nk_slist_foreach] visits them. *)
Record allocEntry := mk_allocEntry {
  entry_pointer : Z;
  entry_length : Z;
  entry_allocToEscapeMap : list Z
}.

(** Modelled from the spec: [doesItAlias] is declared outside this file.
    Spec 4.1: given a candidate address [p], a base [b] and a length [L],
    decide [b <= p < b+L] on unsigned 64-bit addresses; if so return the
    offset [p - b] as a signed value, otherwise a negative sentinel. *)
Definition doesItAlias (allocAddr length escapeVal : Z) : Z :=
  if (allocAddr <=? escapeVal) && (escapeVal <? wrap64 (allocAddr + length))
  then to_int64 (escapeVal - allocAddr)
  else -1.

(** One iteration of the loop of [carat_patch_escapes]. *)
Definition patch_escape (entry : allocEntry) (allocationTarget : Z)
    (m : memory) (escape : Z) : memory :=
  let offset := doesItAlias (entry_pointer entry) (entry_length entry) (load64 m escape) in
  if 0 <=? offset
  then store64 m escape (wrap64 (to_int64 allocationTarget + offset))
  else m.

(** [carat_patch_escapes]: the memory after the pass and the return code. *)
Definition carat_patch_escapes (entry : allocEntry) (allocationTarget : Z)
    (m : memory) : memory * Z :=
  (fold_left (patch_escape entry allocationTarget) (entry_allocToEscapeMap entry) m, 0).

(** ** Thread register snapshots *)

(** The general-purpose registers that [handle_thread] names, in the order
    in which it visits them. *)
Inductive gpr : Set :=
  | R15 | R14 | R13 | R12 | R11 | R10 | R9 | R8 | RBP | RDI | RSI | RDX | RCX | RBX | RAX.

(** Modelled from the spec: [struct nk_regs] is declared outside this file.
    Spec 3: a fixed set of named general-purpose registers captured for
    a suspended thread, next to its instruction pointer and its stack
    pointer. *)
Record nk_regs := mk_nk_regs {
  r15 : Z;
  r14 : Z;
  r13 : Z;
  r12 : Z;
  r11 : Z;
  r10 : Z;
  r9 : Z;
  r8 : Z;
  rbp : Z;
  rdi : Z;
  rsi : Z;
  rdx : Z;
  rcx : Z;
  rbx : Z;
  rax : Z;
  rip : Z;
  rsp : Z
}.

(** [r->reg] *)
Definition get_reg (reg : gpr) (r : nk_regs) : Z :=
  match reg with
  | R15 => r15 r
  | R14 => r14 r
  | R13 => r13 r
  | R12 => r12 r
  | R11 => r11 r
  | R10 => r10 r
  | R9 => r9 r
  | R8 => r8 r
  | RBP => rbp r
  | RDI => rdi r
  | RSI => rsi r
  | RDX => rdx r
  | RCX => rcx r
  | RBX => rbx r
  | RAX => rax r
  end.

(** [r->reg = v] *)
Definition set_reg (reg : gpr) (v : Z) (r : nk_regs) : nk_regs :=
  match reg with
  | R15 =>
      mk_nk_regs v (r14 r) (r13 r) (r12 r) (r11 r) (r10 r) (r9 r) (r8 r) (rbp r) (rdi r) (rsi r) (rdx r) (rcx r) (rbx r) (rax r) (rip r) (rsp r)
  | R14 =>
      mk_nk_regs (r15 r) v (r13 r) (r12 r) (r11 r) (r10 r) (r9 r) (r8 r) (rbp r) (rdi r) (rsi r) (rdx r) (rcx r) (rbx r) (rax r) (rip r) (rsp r)
  | R13 =>
      mk_nk_regs (r15 r) (r14 r) v (r12 r) (r11 r) (r10 r) (r9 r) (r8 r) (rbp r) (rdi r) (rsi r) (rdx r) (rcx r) (rbx r) (rax r) (rip r) (rsp r)
  | R12 =>
      mk_nk_regs (r15 r) (r14 r) (r13 r) v (r11 r) (r10 r) (r9 r) (r8 r) (rbp r) (rdi r) (rsi r) (rdx r) (rcx r) (rbx r) (rax r) (rip r) (rsp r)
  | R11 =>
      mk_nk_regs (r15 r) (r14 r) (r13 r) (r12 r) v (r10 r) (r9 r) (r8 r) (rbp r) (rdi r) (rsi r) (rdx r) (rcx r) (rbx r) (rax r) (rip r) (rsp r)
  | R10 =>
      mk_nk_regs (r15 r) (r14 r) (r13 r) (r12 r) (r11 r) v (r9 r) (r8 r) (rbp r) (rdi r) (rsi r) (rdx r) (rcx r) (rbx r) (rax r) (rip r) (rsp r)
  | R9 =>
      mk_nk_regs (r15 r) (r14 r) (r13 r) (r12 r) (r11 r) (r10 r) v (r8 r) (rbp r) (rdi r) (rsi r) (rdx r) (rcx r) (rbx r) (rax r) (rip r) (rsp r)
  | R8 =>
      mk_nk_regs (r15 r) (r14 r) (r13 r) (r12 r) (r11 r) (r10 r) (r9 r) v (rbp r) (rdi r) (rsi r) (rdx r) (rcx r) (rbx r) (rax r) (rip r) (rsp r)
  | RBP =>
      mk_nk_regs (r15 r) (r14 r) (r13 r) (r12 r) (r11 r) (r10 r) (r9 r) (r8 r) v (rdi r) (rsi r) (rdx r) (rcx r) (rbx r) (rax r) (rip r) (rsp r)
  | RDI =>
      mk_nk_regs (r15 r) (r14 r) (r13 r) (r12 r) (r11 r) (r10 r) (r9 r) (r8 r) (rbp r) v (rsi r) (rdx r) (rcx r) (rbx r) (rax r) (rip r) (rsp r)
  | RSI =>
      mk_nk_regs (r15 r) (r14 r) (r13 r) (r12 r) (r11 r) (r10 r) (r9 r) (r8 r) (rbp r) (rdi r) v (rdx r) (rcx r) (rbx r) (rax r) (rip r) (rsp r)
  | RDX =>
      mk_nk_regs (r15 r) (r14 r) (r13 r) (r12 r) (r11 r) (r10 r) (r9 r) (r8 r) (rbp r) (rdi r) (rsi r) v (rcx r) (rbx r) (rax r) (rip r) (rsp r)
  | RCX =>
      mk_nk_regs (r15 r) (r14 r) (r13 r) (r12 r) (r11 r) (r10 r) (r9 r) (r8 r) (rbp r) (rdi r) (rsi r) (rdx r) v (rbx r) (rax r) (rip r) (rsp r)
  | RBX =>
      mk_nk_regs (r15 r) (r14 r) (r13 r) (r12 r) (r11 r) (r10 r) (r9 r) (r8 r) (rbp r) (rdi r) (rsi r) (rdx r) (rcx r) v (rax r) (rip r) (rsp r)
  | RAX =>
      mk_nk_regs (r15 r) (r14 r) (r13 r) (r12 r) (r11 r) (r10 r) (r9 r) (r8 r) (rbp r) (rdi r) (rsi r) (rdx r) (rcx r) (rbx r) v (rip r) (rsp r)
  end.

(** [struct nk_thread], as far as the pass reads it: the CPU the thread
    runs on, its saved stack pointer [t->rsp], and the register snapshot
    that [handle_thread] finds at [t->rsp - 128].  The snapshot is kept in
    this record and not as bytes of [mem]: [mem] is the memory outside the
    snapshots of the threads. *)
Record nk_thread := mk_nk_thread {
  thread_cpu : Z;
  thread_rsp : Z;
  thread_regs : nk_regs
}.

(** [struct move_alloc_state], in the order of its initializer. *)
Record move_alloc_state := mk_move_alloc_state {
  state_allocationToMove : Z;
  state_allocationTarget : Z;
  state_length : Z;
  state_failed : Z
}.

(** The macro [HANDLE(reg)]. *)
Definition HANDLE (reg : gpr) (state : move_alloc_state) (r : nk_regs) : nk_regs :=
  if (state_allocationToMove state <=? get_reg reg r) &&
     (get_reg reg r <? wrap64 (state_allocationToMove state + state_length state))
  then
    let offset := wrap64 (get_reg reg r - state_allocationToMove state) in
    let newAddr := wrap64 (state_allocationTarget state + offset) in
    set_reg reg newAddr r
  else r.

(** The value that [HANDLE] leaves in the register it names. *)
Definition patched_value (state : move_alloc_state) (v : Z) : Z :=
  if (state_allocationToMove state <=? v) &&
     (v <? wrap64 (state_allocationToMove state + state_length state))
  then wrap64 (state_allocationTarget state + wrap64 (v - state_allocationToMove state))
  else v.

(** [handle_thread]: the callback handed to [nk_sched_map_threads].  It
    returns the thread with its patched snapshot and the shared state. *)
Definition handle_thread (t : nk_thread) (state : move_alloc_state)
    : nk_thread * move_alloc_state :=
  let r := thread_regs t in
  let r := HANDLE R15 state r in
  let r := HANDLE R14 state r in
  let r := HANDLE R13 state r in
  let r := HANDLE R12 state r in
  let r := HANDLE R11 state r in
  let r := HANDLE R10 state r in
  let r := HANDLE R9 state r in
  let r := HANDLE R8 state r in
  let r := HANDLE RBP state r in
  let r := HANDLE RDI state r in
  let r := HANDLE RSI state r in
  let r := HANDLE RDX state r in
  let r := HANDLE RCX state r in
  let r := HANDLE RBX state r in
  let r := HANDLE RAX state r in
  (mk_nk_thread (thread_cpu t) (thread_rsp t) r, state).

(** Modelled from the spec: [nk_sched_map_threads] belongs to the scheduler.
    Spec 6: invoke the callback once per live kernel thread matching the
    filter, handing it the thread and the shared state; the filter [-1]
    matches every CPU. *)
Fixpoint nk_sched_map_threads (cpu : Z)
    (func : nk_thread -> move_alloc_state -> nk_thread * move_alloc_state)
    (ts : list nk_thread) (state : move_alloc_state)
    : list nk_thread * move_alloc_state :=
  match ts with
  | [] => ([], state)
  | t :: rest =>
      let '(t', state1) :=
        if (cpu =? -1) || (cpu =? thread_cpu t) then func t state else (t, state) in
      let '(rest', state2) := nk_sched_map_threads cpu func rest state1 in
      (t' :: rest', state2)
  end.

(** ** The scheduler and the kernel state *)

Inductive sched_event : Set := StopWorld | StartWorld.

Definition sched_event_eq_dec (x y : sched_event) : {x = y} + {x <> y}.
Proof. decide equality. Defined.

(** What [nk_carat_move_allocation] reads and writes: memory, the global
    [allocationMap] keyed by base address, the live threads, and the
    scheduler (whether the world is stopped, and the calls it served). *)
Record kernel := mk_kernel {
  mem : memory;
  allocationMap : gmap Z allocEntry;
  threads : list nk_thread;
  world_stopped : bool;
  sched_log : list sched_event
}.

Definition set_mem (m : memory) (k : kernel) : kernel :=
  mk_kernel m (allocationMap k) (threads k) (world_stopped k) (sched_log k).

Definition set_allocationMap (d : gmap Z allocEntry) (k : kernel) : kernel :=
  mk_kernel (mem k) d (threads k) (world_stopped k) (sched_log k).

Definition set_threads (ts : list nk_thread) (k : kernel) : kernel :=
  mk_kernel (mem k) (allocationMap k) ts (world_stopped k) (sched_log k).

(** Modelled from the spec: [nk_sched_stop_world] belongs to the scheduler.
    Spec 5 and 6: it grants exclusive access, or reports that it cannot
    (a second stop before the first is released fails); the code reads a
    non-zero result as the failure. *)
Definition nk_sched_stop_world (k : kernel) : kernel * Z :=
  if world_stopped k then (k, -1)
  else (mk_kernel (mem k) (allocationMap k) (threads k) true
          (sched_log k ++ [StopWorld]), 0).

(** Modelled from the spec: [nk_sched_start_world] belongs to the scheduler.
    Spec 6: it always succeeds and releases the exclusive access. *)
Definition nk_sched_start_world (k : kernel) : kernel :=
  mk_kernel (mem k) (allocationMap k) (threads k) false
    (sched_log k ++ [StartWorld]).

(** Modelled from the spec: [findAllocEntry] is declared outside this file.
    Spec 3: this core only performs exact-base lookup. *)
Definition findAllocEntry (address : Z) (k : kernel) : option allocEntry :=
  allocationMap k !! address.

(** Modelled from the spec: the [nk_slist] macros are declared outside this
    file.  Spec 3: the directory maps a base address to its record, and
    entries are inserted and removed by key. *)
Definition nk_slist_add (key : Z) (e : allocEntry) (d : gmap Z allocEntry)
    : gmap Z allocEntry := <[key := e]> d.

Definition nk_slist_remove (key : Z) (d : gmap Z allocEntry)
    : gmap Z allocEntry := delete key d.

(** [carat_update_entry]: the new record is added under the target, then
    the record under [entry->pointer] is removed. *)
Definition carat_update_entry (entry : allocEntry) (allocationTarget : Z)
    (d : gmap Z allocEntry) : gmap Z allocEntry * Z :=
  let newEntry :=
    mk_allocEntry allocationTarget (entry_length entry) (entry_allocToEscapeMap entry) in
  let d := nk_slist_add allocationTarget newEntry d in
  let d := nk_slist_remove (entry_pointer entry) d in
  (d, 0).

(** ** The orchestrator *)

Section Orchestrator.
(** The two passes are parameters here, so that the abort branches of the
    orchestrator can be stated for any pass that reports a failure. *)
Variable patch_escapes : allocEntry -> Z -> memory -> memory * Z.
Variable thread_func : nk_thread -> move_alloc_state -> nk_thread * move_alloc_state.

(** The body of [nk_carat_move_allocation]; [out_good] and [out_bad] are
    the two places where the world is started again. *)
Definition move_allocation_with (allocationToMove allocationTarget : Z)
    (k : kernel) : kernel * Z :=
  let '(k1, stop_rc) := nk_sched_stop_world k in
  if negb (stop_rc =? 0) then (k1, -1)
  else
    match findAllocEntry allocationToMove k1 with
    | None => (nk_sched_start_world k1, -1)
    | Some entry =>
        let '(m1, patch_rc) := patch_escapes entry allocationTarget (mem k1) in
        let k2 := set_mem m1 k1 in
        if patch_rc =? 1 then (nk_sched_start_world k2, -1)
        else
          let state :=
            mk_move_alloc_state allocationToMove allocationTarget (entry_length entry) 0 in
          let '(ts, state') :=
            nk_sched_map_threads (-1) thread_func (threads k2) state in
          let k3 := set_threads ts k2 in
          if negb (state_failed state' =? 0) then (nk_sched_start_world k3, -1)
          else
            let k4 :=
              set_mem (memmove (mem k3) allocationToMove allocationTarget
                         (entry_length entry)) k3 in
            let '(d, _) := carat_update_entry entry allocationTarget (allocationMap k4) in
            let k5 := set_allocationMap d k4 in
            (nk_sched_start_world k5, 0)
    end.
End Orchestrator.

(** [nk_carat_move_allocation], with the passes of this file. *)
Definition nk_carat_move_allocation (allocationToMove allocationTarget : Z)
    (k : kernel) : kernel * Z :=
  move_allocation_with carat_patch_escapes handle_thread
    allocationToMove allocationTarget k.

(** ** A concrete scenario *)

(** Spec 8: an entry at [0x1000] of length 64, a slot at [0x2000] that
    holds [0x1010], a slot at [0x2008] that holds [0x5000]; the bytes of the
    allocation are [0xAA], those at [0x9000] are [0x55]. *)
Definition scenario_entry : allocEntry := mk_allocEntry 0x1000 64 [0x2000; 0x2008].

Definition scenario_bytes : memory :=
  fun a =>
    if (0x1000 <=? a) && (a <? 0x1040) then 0xAA
    else if (0x9000 <=? a) && (a <? 0x9040) then 0x55
    else 0.

Definition scenario_mem : memory :=
  store64 (store64 scenario_bytes 0x2000 0x1010) 0x2008 0x5000.

(** One suspended thread: [rax] and [rsp] point into the allocation. *)
Definition scenario_thread : nk_thread :=
  mk_nk_thread 0 0x1030
    (mk_nk_regs 0 0 0 0 0 0 0 0 0 0 0 0 0 0x7777 0x1020 0x400000 0x1030).

Definition scenario_kernel : kernel :=
  mk_kernel scenario_mem {[ 0x1000 := scenario_entry ]} [scenario_thread] false [].

(** Passes that report a failure, for the abort branches. *)
Definition failing_patch_escapes (entry : allocEntry) (allocationTarget : Z)
    (m : memory) : memory * Z := (m, 1).

Definition failing_thread_func (t : nk_thread) (state : move_alloc_state)
    : nk_thread * move_alloc_state :=
  (t, mk_move_alloc_state (state_allocationToMove state)
        (state_allocationTarget state) (state_length state) 1).

(** ** Predicates on the state *)

(** Two blocks of the same length that share no byte. *)
Definition blocks_disjoint (a b len : Z) : Prop := a + len <= b \/ b + len <= a.

(** The address [x] is one of the eight bytes of the slot at [e]. *)
Definition in_slot (e x : Z) : Prop := e <= x < e + 8.

(** The directory invariant: every record sits under its own base. *)
Definition keyed_by_base (d : gmap Z allocEntry) : Prop :=
  forall a e, d !! a = Some e -> entry_pointer e = a.

(** ** Slots that overlap *)

(** The entry of the scenario with two escapes four bytes apart, and a
    memory in which the eight bytes at [0x2000] hold [0x10200000ffff]. *)
Definition overlap_entry : allocEntry := mk_allocEntry 0x1000 64 [0x2000; 0x2004].

Definition overlap_mem : memory := store64 (fun _ => 0) 0x2000 0x10200000ffff.

(** ** Memory lemmas *)

Lemma le_decode_8 (b0 b1 b2 b3 b4 b5 b6 b7 : Z) :
  le_decode [b0; b1; b2; b3; b4; b5; b6; b7] =
  b0 + 256 * (b1 + 256 * (b2 + 256 * (b3 + 256 * (b4 + 256 * (b5 + 256 * (b6 + 256 * b7)))))).
Proof. simpl. lia. Qed.

Lemma load_bytes_ext (m m' : memory) (n : nat) (a : Z) :
  (forall x, a <= x < a + Z.of_nat n -> m' x = m x) ->
  load_bytes m' a n = load_bytes m a n.
Proof.
  revert a. induction n as [|n IH]; intros a H; [reflexivity|].
  simpl. f_equal.
  - apply H. lia.
  - apply IH. intros x Hx. apply H. lia.
Qed.

Lemma load64_ext (m m' : memory) (a : Z) :
  (forall x, a <= x < a + 8 -> m' x = m x) -> load64 m' a = load64 m a.
Proof.
  intros H. unfold load64. f_equal. apply load_bytes_ext.
  intros x Hx. apply H. lia.
Qed.

Lemma load64_store64_other (m : memory) (a b v : Z) :
  a + 8 <= b \/ b + 8 <= a -> load64 (store64 m a v) b = load64 m b.
Proof.
  intros H. apply load64_ext. intros x Hx. unfold store64.
  destruct (a <=? x) eqn:E1; destruct (x <? a + 8) eqn:E2; simpl; try reflexivity.
  apply Z.leb_le in E1. apply Z.ltb_lt in E2. lia.
Qed.

Lemma bytes_recompose (v : Z) :
  0 <= v < 2^64 ->
  byte_of v 0 + 256 * (byte_of v 1 + 256 * (byte_of v 2 + 256 * (byte_of v 3 +
    256 * (byte_of v 4 + 256 * (byte_of v 5 + 256 * (byte_of v 6 + 256 * byte_of v 7)))))) = v.
Proof.
  intros Hv. unfold byte_of.
  change (256 ^ 0) with 1. change (256 ^ 1) with 256.
  change (256 ^ 2) with (256 * 256).
  change (256 ^ 3) with (256 * 256 * 256).
  change (256 ^ 4) with (256 * 256 * 256 * 256).
  change (256 ^ 5) with (256 * 256 * 256 * 256 * 256).
  change (256 ^ 6) with (256 * 256 * 256 * 256 * 256 * 256).
  change (256 ^ 7) with (256 * 256 * 256 * 256 * 256 * 256 * 256).
  rewrite Z.div_1_r.
  rewrite <- !Z.div_div by lia.
  set (q1 := v / 256). set (q2 := q1 / 256). set (q3 := q2 / 256).
  set (q4 := q3 / 256). set (q5 := q4 / 256). set (q6 := q5 / 256).
  set (q7 := q6 / 256).
  assert (H0 := Z.div_mod v 256 ltac:(lia)).
  assert (H1 := Z.div_mod q1 256 ltac:(lia)).
  assert (H2 := Z.div_mod q2 256 ltac:(lia)).
  assert (H3 := Z.div_mod q3 256 ltac:(lia)).
  assert (H4 := Z.div_mod q4 256 ltac:(lia)).
  assert (H5 := Z.div_mod q5 256 ltac:(lia)).
  assert (H6 := Z.div_mod q6 256 ltac:(lia)).
  assert (H7 : q7 mod 256 = q7).
  { apply Z.mod_small. subst q7 q6 q5 q4 q3 q2 q1.
    rewrite !Z.div_div by lia. simpl.
    split; [apply Z.div_pos; lia | apply Z.div_lt_upper_bound; lia]. }
  fold q1 in H0. fold q2 in H1. fold q3 in H2. fold q4 in H3.
  fold q5 in H4. fold q6 in H5. fold q7 in H6.
  lia.
Qed.

Lemma load64_store64_same (m : memory) (a v : Z) :
  0 <= v < 2^64 -> load64 (store64 m a v) a = v.
Proof.
  intros Hv. unfold load64. cbn [load_bytes]. rewrite le_decode_8.
  unfold store64.
  repeat match goal with
  | |- context [if (?x <=? ?y) && (?y <? ?z) then _ else _] =>
      replace ((x <=? y) && (y <? z)) with true
        by (symmetry; apply andb_true_intro; split; [apply Z.leb_le | apply Z.ltb_lt]; lia)
  end.
  replace (a - a) with 0 by lia.
  replace (a + 1 - a) with 1 by lia.
  replace (a + 1 + 1 - a) with 2 by lia.
  replace (a + 1 + 1 + 1 - a) with 3 by lia.
  replace (a + 1 + 1 + 1 + 1 - a) with 4 by lia.
  replace (a + 1 + 1 + 1 + 1 + 1 - a) with 5 by lia.
  replace (a + 1 + 1 + 1 + 1 + 1 + 1 - a) with 6 by lia.
  replace (a + 1 + 1 + 1 + 1 + 1 + 1 + 1 - a) with 7 by lia.
  apply bytes_recompose. exact Hv.
Qed.

(** ** Integer lemmas *)

Lemma wrap64_small (x : Z) : 0 <= x < 2^64 -> wrap64 x = x.
Proof. intros H. unfold wrap64. apply Z.mod_small. exact H. Qed.

Lemma to_int64_small (x : Z) : 0 <= x < 2^63 -> to_int64 x = x.
Proof.
  intros H. unfold to_int64. rewrite Z.mod_small; lia.
Qed.

Lemma wrap64_to_int64_add (t o : Z) : wrap64 (to_int64 t + o) = wrap64 (t + o).
Proof.
  unfold wrap64, to_int64.
  rewrite (Z.mod_eq (t + 2^63) (2^64)) by lia.
  replace (t + 2 ^ 63 - 2 ^ 64 * ((t + 2 ^ 63) / 2 ^ 64) - 2 ^ 63 + o)
    with (t + o + (- ((t + 2 ^ 63) / 2 ^ 64)) * 2 ^ 64) by lia.
  apply Z_mod_plus_full.
Qed.

(** ** Disjoint slots *)

Lemma forallb_slots_sym (a : Z) (l : list Z) :
  forallb (fun b => (a + 8 <=? b) || (b + 8 <=? a)) l =
  forallb (fun b => (b + 8 <=? a) || (a + 8 <=? b)) l.
Proof.
  induction l as [|x l IH]; [reflexivity|]. simpl. rewrite IH.
  f_equal. apply orb_comm.
Qed.

Lemma slots_disjoint_elem (l : list Z) (a e : Z) :
  forallb (fun b => (a + 8 <=? b) || (b + 8 <=? a)) l = true ->
  e ∈ l -> a + 8 <= e \/ e + 8 <= a.
Proof.
  intros H He. rewrite forallb_forall in H.
  apply list_elem_of_In in He. specialize (H e He).
  apply orb_prop in H as [H|H]; apply Z.leb_le in H; lia.
Qed.

(** ** The escape patch pass *)

Section EscapePass.
Variable entry : allocEntry.
Variable target : Z.

Let base := entry_pointer entry.
Let len := entry_length entry.

Hypothesis Hsrc : addressable base len.
Hypothesis Hlen : len <= 2^63.
Hypothesis Htgt : addressable target len.

Lemma doesItAlias_inside (v : Z) :
  base <= v < base + len -> doesItAlias base len v = v - base.
Proof using Hsrc Hlen.
  intros Hv. destruct Hsrc as (Hb & Hl & Hbl). unfold doesItAlias.
  rewrite wrap64_small by lia.
  replace ((base <=? v) && (v <? base + len)) with true
    by (symmetry; apply andb_true_intro; split; [apply Z.leb_le | apply Z.ltb_lt]; lia).
  apply to_int64_small. lia.
Qed.

Lemma doesItAlias_outside (v : Z) :
  ~ (base <= v < base + len) -> doesItAlias base len v = -1.
Proof using Hsrc.
  intros Hv. destruct Hsrc as (Hb & Hl & Hbl). unfold doesItAlias.
  rewrite wrap64_small by lia.
  destruct (base <=? v) eqn:E1; destruct (v <? base + len) eqn:E2; simpl; try reflexivity.
  apply Z.leb_le in E1. apply Z.ltb_lt in E2. lia.
Qed.

Lemma patch_escape_inside (m : memory) (e : Z) :
  base <= load64 m e < base + len ->
  load64 (patch_escape entry target m e) e = target + (load64 m e - base).
Proof using Hsrc Hlen Htgt.
  intros Hv. unfold patch_escape. fold base len.
  rewrite (doesItAlias_inside _ Hv).
  destruct Htgt as (Ht & _ & Htl).
  replace (0 <=? load64 m e - base) with true by (symmetry; apply Z.leb_le; lia).
  rewrite wrap64_to_int64_add, wrap64_small by lia.
  apply load64_store64_same. lia.
Qed.

Lemma patch_escape_outside (m : memory) (e : Z) :
  ~ (base <= load64 m e < base + len) -> patch_escape entry target m e = m.
Proof using Hsrc.
  intros Hv. unfold patch_escape. fold base len.
  rewrite (doesItAlias_outside _ Hv). reflexivity.
Qed.

Lemma patch_escape_other (m : memory) (e b : Z) :
  e + 8 <= b \/ b + 8 <= e ->
  load64 (patch_escape entry target m e) b = load64 m b.
Proof using Type.
  intros Hd. unfold patch_escape.
  destruct (0 <=? _); [apply load64_store64_other; exact Hd | reflexivity].
Qed.

Lemma patch_fold_other (l : list Z) (m : memory) (b : Z) :
  forallb (fun a => (a + 8 <=? b) || (b + 8 <=? a)) l = true ->
  load64 (fold_left (patch_escape entry target) l m) b = load64 m b.
Proof using Type.
  revert m. induction l as [|a l IH]; intros m H; [reflexivity|].
  simpl in H. apply andb_prop in H as [Ha Hl]. simpl.
  rewrite IH by exact Hl. apply patch_escape_other.
  apply orb_prop in Ha as [Ha|Ha]; apply Z.leb_le in Ha; lia.
Qed.

(** What the pass leaves in a slot of the list it walks. *)
Lemma patch_fold_slot (l : list Z) (m : memory) (e : Z) :
  slots_disjoint l = true -> e ∈ l ->
  let before := load64 m e in
  let after := load64 (fold_left (patch_escape entry target) l m) e in
  (base <= before < base + len -> after = target + (before - base)) /\
  (~ (base <= before < base + len) -> after = before).
Proof using Hsrc Hlen Htgt.
  revert m. induction l as [|a l IH]; intros m Hd He.
  - inversion He.
  - simpl in Hd. apply andb_prop in Hd as [Ha Hl]. simpl.
    apply elem_of_cons in He as [->|He].
    + rewrite patch_fold_other by (rewrite <- forallb_slots_sym; exact Ha).
      split; intros Hv.
      * apply patch_escape_inside. exact Hv.
      * rewrite patch_escape_outside by exact Hv. reflexivity.
    + pose proof (slots_disjoint_elem l a e Ha He) as Hae.
      specialize (IH (patch_escape entry target m a) Hl He). simpl in IH.
      rewrite (patch_escape_other m a e Hae) in IH. exact IH.
Qed.
End EscapePass.

(** C2. Escape correctness.  For an entry whose block, and the block of the
    same length at the target, lie inside the address space (with a length
    that a signed offset can hold), and whose escape slots are distinct
    pointer-sized slots: after [carat_patch_escapes] every slot [e] of the
    entry that held a value in [base, base+length) holds
    [target + (value - base)], and every other slot of the entry holds what
    it held before. *)
Theorem carat_patch_escapes_correct (entry : allocEntry) (t : Z) (m : memory) (e : Z) :
  addressable (entry_pointer entry) (entry_length entry) ->
  entry_length entry <= 2^63 ->
  addressable t (entry_length entry) ->
  slots_disjoint (entry_allocToEscapeMap entry) = true ->
  e ∈ entry_allocToEscapeMap entry ->
  let before := load64 m e in
  let after := load64 (fst (carat_patch_escapes entry t m)) e in
  (entry_pointer entry <= before < entry_pointer entry + entry_length entry ->
     after = t + (before - entry_pointer entry)) /\
  (~ (entry_pointer entry <= before < entry_pointer entry + entry_length entry) ->
     after = before).
Proof.
  intros Hsrc Hlen Htgt Hd He. unfold carat_patch_escapes. simpl.
  exact (patch_fold_slot entry t Hsrc Hlen Htgt _ m e Hd He).
Qed.

(** The statement of C2 without the condition on the slots fails: the
    slots at [0x2000] and [0x2004] share four bytes.  The slot at [0x2000]
    holds [0x10200000ffff], which is not in the block, and the slot at
    [0x2004] holds [0x1020], which is; patching the latter changes the
    former. *)
Lemma carat_patch_escapes_overlap_counterexample :
  addressable (entry_pointer overlap_entry) (entry_length overlap_entry) /\
  entry_length overlap_entry <= 2^63 /\
  addressable 0x9000 (entry_length overlap_entry) /\
  0x2000 ∈ entry_allocToEscapeMap overlap_entry /\
  load64 overlap_mem 0x2000 = 0x10200000ffff /\
  ~ (entry_pointer overlap_entry <= load64 overlap_mem 0x2000
       < entry_pointer overlap_entry + entry_length overlap_entry) /\
  load64 (fst (carat_patch_escapes overlap_entry 0x9000 overlap_mem)) 0x2000
    = 0x90200000ffff /\
  load64 (fst (carat_patch_escapes overlap_entry 0x9000 overlap_mem)) 0x2000
    <> load64 overlap_mem 0x2000.
Proof.
  assert (Hb : load64 overlap_mem 0x2000 = 0x10200000ffff) by (vm_compute; reflexivity).
  assert (Ha : load64 (fst (carat_patch_escapes overlap_entry 0x9000 overlap_mem)) 0x2000
               = 0x90200000ffff) by (vm_compute; reflexivity).
  split; [unfold addressable; cbn; lia|]. split; [cbn; lia|].
  split; [unfold addressable; cbn; lia|]. split; [cbn; left|].
  split; [exact Hb|]. split; [rewrite Hb; cbn; lia|].
  split; [exact Ha|]. rewrite Ha, Hb. discriminate.
Qed.

(** ** The thread register patch pass *)

Lemma gpr_eq_dec (x y : gpr) : {x = y} + {x <> y}.
Proof. decide equality. Defined.

Lemma get_reg_HANDLE (x y : gpr) (state : move_alloc_state) (r : nk_regs) :
  get_reg y (HANDLE x state r) =
  if gpr_eq_dec x y then patched_value state (get_reg y r) else get_reg y r.
Proof.
  unfold HANDLE, patched_value.
  destruct x, y; cbn [gpr_eq_dec gpr_rec gpr_rect sumbool_rec sumbool_rect get_reg];
    try (destruct (_ && _); reflexivity);
    destruct r; cbn; destruct (_ && _); reflexivity.
Qed.

Lemma rip_HANDLE (x : gpr) (state : move_alloc_state) (r : nk_regs) :
  rip (HANDLE x state r) = rip r.
Proof. unfold HANDLE. destruct (_ && _); [destruct x|]; reflexivity. Qed.

Lemma rsp_HANDLE (x : gpr) (state : move_alloc_state) (r : nk_regs) :
  rsp (HANDLE x state r) = rsp r.
Proof. unfold HANDLE. destruct (_ && _); [destruct x|]; reflexivity. Qed.

Lemma handle_thread_reg (t : nk_thread) (state : move_alloc_state) (reg : gpr) :
  get_reg reg (thread_regs (fst (handle_thread t state))) =
  patched_value state (get_reg reg (thread_regs t)).
Proof.
  unfold handle_thread. cbn [fst thread_regs].
  rewrite !get_reg_HANDLE. destruct reg; reflexivity.
Qed.

Lemma handle_thread_rip (t : nk_thread) (state : move_alloc_state) :
  rip (thread_regs (fst (handle_thread t state))) = rip (thread_regs t).
Proof. unfold handle_thread. cbn [fst thread_regs]. rewrite !rip_HANDLE. reflexivity. Qed.

Lemma handle_thread_rsp (t : nk_thread) (state : move_alloc_state) :
  rsp (thread_regs (fst (handle_thread t state))) = rsp (thread_regs t).
Proof. unfold handle_thread. cbn [fst thread_regs]. rewrite !rsp_HANDLE. reflexivity. Qed.

Lemma handle_thread_state (t : nk_thread) (state : move_alloc_state) :
  snd (handle_thread t state) = state.
Proof. reflexivity. Qed.

Lemma patched_value_spec (state : move_alloc_state) (v : Z) :
  addressable (state_allocationToMove state) (state_length state) ->
  addressable (state_allocationTarget state) (state_length state) ->
  (state_allocationToMove state <= v < state_allocationToMove state + state_length state ->
     patched_value state v = state_allocationTarget state + (v - state_allocationToMove state)) /\
  (~ (state_allocationToMove state <= v < state_allocationToMove state + state_length state) ->
     patched_value state v = v).
Proof.
  intros (Hs & Hl & Hsl) (Ht & _ & Htl). unfold patched_value.
  rewrite (wrap64_small (_ + state_length state)) by lia.
  split; intros Hv.
  - replace ((_ <=? v) && _) with true
      by (symmetry; apply andb_true_intro; split; [apply Z.leb_le | apply Z.ltb_lt]; lia).
    rewrite (wrap64_small (v - _)) by lia. apply wrap64_small. lia.
  - destruct (_ <=? v) eqn:E1; destruct (v <? _) eqn:E2; simpl; try reflexivity.
    apply Z.leb_le in E1. apply Z.ltb_lt in E2. lia.
Qed.

(** With the filter [-1] the callback runs on every thread; the callback
    of this file hands the shared state on as it got it. *)
Lemma map_threads_handle_thread (ts : list nk_thread) (state : move_alloc_state) :
  nk_sched_map_threads (-1) handle_thread ts state =
  (map (fun t => fst (handle_thread t state)) ts, state).
Proof.
  induction ts as [|t ts IH]; [reflexivity|].
  change (nk_sched_map_threads (-1) handle_thread (t :: ts) state) with
    (let '(t', state1) := handle_thread t state in
     let '(rest', state2) := nk_sched_map_threads (-1) handle_thread ts state1 in
     (t' :: rest', state2)).
  cbn [handle_thread]. rewrite IH. reflexivity.
Qed.

(** C3. Register correctness.  When the moved block and the block of the
    same length at the target lie inside the address space, the thread pass
    leaves, for every thread and every tracked general-purpose register of
    its snapshot, [target + (value - source)] if the value lay in
    [source, source+length) and the value itself otherwise; the stack
    pointer and the instruction pointer keep their values. *)
Theorem thread_pass_register_correct (ts : list nk_thread) (state : move_alloc_state)
    (i : nat) (t : nk_thread) :
  addressable (state_allocationToMove state) (state_length state) ->
  addressable (state_allocationTarget state) (state_length state) ->
  ts !! i = Some t ->
  exists t',
    fst (nk_sched_map_threads (-1) handle_thread ts state) !! i = Some t' /\
    (forall reg : gpr,
       let before := get_reg reg (thread_regs t) in
       let after := get_reg reg (thread_regs t') in
       (state_allocationToMove state <= before
          < state_allocationToMove state + state_length state ->
        after = state_allocationTarget state + (before - state_allocationToMove state)) /\
       (~ (state_allocationToMove state <= before
             < state_allocationToMove state + state_length state) ->
        after = before)) /\
    rsp (thread_regs t') = rsp (thread_regs t) /\
    rip (thread_regs t') = rip (thread_regs t) /\
    thread_rsp t' = thread_rsp t.
Proof.
  intros Hsrc Htgt Hi. rewrite map_threads_handle_thread. cbn [fst].
  exists (fst (handle_thread t state)). split.
  - rewrite list_lookup_fmap, Hi. reflexivity.
  - split; [|split; [apply handle_thread_rsp | split; [apply handle_thread_rip | reflexivity]]].
    intros reg. cbv zeta.
    rewrite handle_thread_reg. apply patched_value_spec; assumption.
Qed.

(** ** The paths of the orchestrator *)

Section Paths.
Variable patch_escapes : allocEntry -> Z -> memory -> memory * Z.
Variable thread_func : nk_thread -> move_alloc_state -> nk_thread * move_alloc_state.
Variables allocationToMove allocationTarget : Z.
Variable k : kernel.

Let run := move_allocation_with patch_escapes thread_func allocationToMove allocationTarget k.
Let resumed_log := sched_log k ++ [StopWorld; StartWorld].

(** The scheduler refuses: nothing happens. *)
Lemma path_busy : world_stopped k = true -> run = (k, -1).
Proof using Type.
  intros Hw. subst run. unfold move_allocation_with, nk_sched_stop_world.
  rewrite Hw. reflexivity.
Qed.

(** No entry under the source: [out_bad]. *)
Lemma path_not_found :
  world_stopped k = false ->
  allocationMap k !! allocationToMove = None ->
  run = (mk_kernel (mem k) (allocationMap k) (threads k) false resumed_log, -1).
Proof using Type.
  intros Hw Hf. subst run resumed_log.
  unfold move_allocation_with, nk_sched_stop_world, findAllocEntry.
  rewrite Hw. cbn. rewrite Hf. unfold nk_sched_start_world. cbn.
  rewrite <- app_assoc. reflexivity.
Qed.

Section Found.
Variable entry : allocEntry.
Hypothesis Hw : world_stopped k = false.
Hypothesis Hf : allocationMap k !! allocationToMove = Some entry.

Let patched := patch_escapes entry allocationTarget (mem k).
Let mapped :=
  nk_sched_map_threads (-1) thread_func (threads k)
    (mk_move_alloc_state allocationToMove allocationTarget (entry_length entry) 0).

(** The escape pass reports a failure: [out_bad]. *)
Lemma path_patch_failed :
  snd patched = 1 ->
  run = (mk_kernel (fst patched) (allocationMap k) (threads k) false resumed_log, -1).
Proof using Hw Hf.
  intros Hp. subst run resumed_log patched.
  unfold move_allocation_with, nk_sched_stop_world, findAllocEntry.
  rewrite Hw. cbn. rewrite Hf.
  destruct (patch_escapes entry allocationTarget (mem k)) as [m1 rc].
  cbn in Hp. subst rc. cbn. unfold nk_sched_start_world. cbn.
  rewrite <- app_assoc. reflexivity.
Qed.

(** The thread pass sets the flag: [out_bad], after the escape pass. *)
Lemma path_threads_failed :
  snd patched <> 1 -> state_failed (snd mapped) <> 0 ->
  run = (mk_kernel (fst patched) (allocationMap k) (fst mapped) false resumed_log, -1).
Proof using Hw Hf.
  intros Hp Hm. subst run resumed_log patched mapped.
  unfold move_allocation_with, nk_sched_stop_world, findAllocEntry.
  rewrite Hw. cbn. rewrite Hf.
  destruct (patch_escapes entry allocationTarget (mem k)) as [m1 rc].
  cbn in Hp. apply Z.eqb_neq in Hp. rewrite Hp. cbn.
  destruct (nk_sched_map_threads _ _ _ _) as [ts st]. cbn in Hm.
  apply Z.eqb_neq in Hm. rewrite Hm. cbn. unfold nk_sched_start_world. cbn.
  rewrite <- app_assoc. reflexivity.
Qed.

(** Both passes went through: copy, directory update, [out_good]. *)
Lemma path_success :
  snd patched <> 1 -> state_failed (snd mapped) = 0 ->
  run = (mk_kernel
           (memmove (fst patched) allocationToMove allocationTarget (entry_length entry))
           (delete (entry_pointer entry)
              (<[allocationTarget :=
                   mk_allocEntry allocationTarget (entry_length entry)
                     (entry_allocToEscapeMap entry)]> (allocationMap k)))
           (fst mapped) false resumed_log, 0).
Proof using Hw Hf.
  intros Hp Hm. subst run resumed_log patched mapped.
  unfold move_allocation_with, nk_sched_stop_world, findAllocEntry.
  rewrite Hw. cbn. rewrite Hf.
  destruct (patch_escapes entry allocationTarget (mem k)) as [m1 rc].
  cbn in Hp. apply Z.eqb_neq in Hp. rewrite Hp. cbn.
  destruct (nk_sched_map_threads _ _ _ _) as [ts st]. cbn in Hm.
  rewrite Hm. cbn. unfold nk_sched_start_world. cbn.
  rewrite <- app_assoc. reflexivity.
Qed.
End Found.

(** C5. World always resumed.  Whatever the passes report, a call that
    was granted stop-the-world has called [nk_sched_start_world] exactly
    once when it returns, after the stop, and leaves the world running:
    on the success path, when the entry is not found, when the escape
    pass fails and when the thread pass fails. *)
Theorem world_resumed_exactly_once :
  world_stopped k = false ->
  sched_log (fst run) = sched_log k ++ [StopWorld; StartWorld] /\
  count_occ sched_event_eq_dec (sched_log (fst run)) StartWorld =
    S (count_occ sched_event_eq_dec (sched_log k) StartWorld) /\
  world_stopped (fst run) = false.
Proof using Type.
  intros Hw.
  assert (H : sched_log (fst run) = resumed_log /\ world_stopped (fst run) = false).
  { destruct (allocationMap k !! allocationToMove) as [entry|] eqn:Hf.
    - destruct (Z.eq_dec (snd (patch_escapes entry allocationTarget (mem k))) 1) as [Hp|Hp].
      + rewrite (path_patch_failed entry Hw Hf Hp). split; reflexivity.
      + destruct (Z.eq_dec (state_failed (snd (nk_sched_map_threads (-1) thread_func
            (threads k) (mk_move_alloc_state allocationToMove allocationTarget
               (entry_length entry) 0)))) 0) as [Hm|Hm].
        * rewrite (path_success entry Hw Hf Hp Hm). split; reflexivity.
        * rewrite (path_threads_failed entry Hw Hf Hp Hm). split; reflexivity.
    - rewrite (path_not_found Hw Hf). split; reflexivity. }
  destruct H as [Hl Hs]. split; [exact Hl | split; [| exact Hs]].
  rewrite Hl. subst resumed_log. rewrite count_occ_app. cbn. lia.
Qed.
End Paths.

(** ** The passes of this file never report a failure *)

Lemma carat_patch_escapes_returns_0 (entry : allocEntry) (t : Z) (m : memory) :
  snd (carat_patch_escapes entry t m) = 0.
Proof. reflexivity. Qed.

Lemma thread_pass_keeps_flag (ts : list nk_thread) (state : move_alloc_state) :
  snd (nk_sched_map_threads (-1) handle_thread ts state) = state.
Proof. rewrite map_threads_handle_thread. reflexivity. Qed.

(** What a call that was granted the stop and found its entry returns. *)
Lemma nk_carat_move_allocation_found (source target : Z) (k : kernel) (entry : allocEntry) :
  world_stopped k = false ->
  allocationMap k !! source = Some entry ->
  nk_carat_move_allocation source target k =
  (mk_kernel
     (memmove (fst (carat_patch_escapes entry target (mem k))) source target
        (entry_length entry))
     (delete (entry_pointer entry)
        (<[target := mk_allocEntry target (entry_length entry)
                       (entry_allocToEscapeMap entry)]> (allocationMap k)))
     (map (fun t => fst (handle_thread t
             (mk_move_alloc_state source target (entry_length entry) 0))) (threads k))
     false (sched_log k ++ [StopWorld; StartWorld]), 0).
Proof.
  intros Hw Hf. unfold nk_carat_move_allocation.
  rewrite (path_success carat_patch_escapes handle_thread source target k entry Hw Hf).
  - rewrite map_threads_handle_thread. reflexivity.
  - rewrite carat_patch_escapes_returns_0. discriminate.
  - rewrite thread_pass_keeps_flag. reflexivity.
Qed.

(** A call returns 0 only if it was granted the stop and found an entry. *)
Lemma nk_carat_move_allocation_success_inv (source target : Z) (k : kernel) :
  snd (nk_carat_move_allocation source target k) = 0 ->
  world_stopped k = false /\ exists entry, allocationMap k !! source = Some entry.
Proof.
  intros H. unfold nk_carat_move_allocation in H.
  destruct (world_stopped k) eqn:Hw.
  - rewrite path_busy in H by exact Hw. discriminate H.
  - split; [reflexivity|].
    destruct (allocationMap k !! source) as [entry|] eqn:Hf; [eauto|].
    rewrite path_not_found in H by assumption. discriminate H.
Qed.

(** C10. No failure is ever reported.  [carat_patch_escapes] returns 0 and
    the thread pass leaves the failure flag at 0, so a call that was granted
    the stop and found its entry takes neither abort branch and returns 0. *)
Theorem found_entry_always_succeeds (source target : Z) (k : kernel) (entry : allocEntry) :
  world_stopped k = false ->
  allocationMap k !! source = Some entry ->
  snd (carat_patch_escapes entry target (mem k)) = 0 /\
  state_failed (snd (nk_sched_map_threads (-1) handle_thread (threads k)
     (mk_move_alloc_state source target (entry_length entry) 0))) = 0 /\
  snd (nk_carat_move_allocation source target k) = 0.
Proof.
  intros Hw Hf. split; [reflexivity|]. split.
  - rewrite thread_pass_keeps_flag. reflexivity.
  - rewrite (nk_carat_move_allocation_found source target k entry Hw Hf). reflexivity.
Qed.

(** C7. Allocation not found.  When the directory has no entry under the
    source, the call returns -1 and leaves the directory, memory (hence
    every escape slot) and the threads' registers as they were; the world
    is in the state it was in before the call, and if the stop was granted
    the scheduler has seen it followed by the start. *)
Theorem not_found_is_a_noop (source target : Z) (k : kernel) :
  allocationMap k !! source = None ->
  snd (nk_carat_move_allocation source target k) = -1 /\
  allocationMap (fst (nk_carat_move_allocation source target k)) = allocationMap k /\
  mem (fst (nk_carat_move_allocation source target k)) = mem k /\
  threads (fst (nk_carat_move_allocation source target k)) = threads k /\
  world_stopped (fst (nk_carat_move_allocation source target k)) = world_stopped k /\
  (world_stopped k = false ->
   sched_log (fst (nk_carat_move_allocation source target k)) =
     sched_log k ++ [StopWorld; StartWorld]).
Proof.
  intros Hf. unfold nk_carat_move_allocation.
  destruct (world_stopped k) eqn:Hw.
  - rewrite path_busy by exact Hw. cbn. rewrite Hw. repeat split; congruence.
  - rewrite path_not_found by assumption. cbn. repeat split; reflexivity.
Qed.

(** C6. Thread pass failure after the escape pass.  For any thread callback
    that leaves the shared failure flag set after the iteration, the call
    returns -1; the directory is the one from before the call, with the
    entry still under the source; and memory is what the escape pass left,
    with no byte copied and no slot restored. *)
Theorem thread_failure_keeps_escape_patches
    (thread_func : nk_thread -> move_alloc_state -> nk_thread * move_alloc_state)
    (source target : Z) (k : kernel) (entry : allocEntry) :
  world_stopped k = false ->
  allocationMap k !! source = Some entry ->
  state_failed (snd (nk_sched_map_threads (-1) thread_func (threads k)
     (mk_move_alloc_state source target (entry_length entry) 0))) <> 0 ->
  snd (move_allocation_with carat_patch_escapes thread_func source target k) = -1 /\
  allocationMap (fst (move_allocation_with carat_patch_escapes thread_func source target k))
    = allocationMap k /\
  allocationMap (fst (move_allocation_with carat_patch_escapes thread_func source target k))
    !! source = Some entry /\
  mem (fst (move_allocation_with carat_patch_escapes thread_func source target k))
    = fst (carat_patch_escapes entry target (mem k)).
Proof.
  intros Hw Hf Hm.
  rewrite (path_threads_failed carat_patch_escapes thread_func source target k entry Hw Hf).
  - cbn. repeat split; try reflexivity. exact Hf.
  - rewrite carat_patch_escapes_returns_0. discriminate.
  - exact Hm.
Qed.

(** C4. Directory re-keying.  After a successful move of the entry found
    under [source], whose base is its key, to a different address, the
    directory has no entry under [source], and the entry under [target]
    (a map has one at most) carries the length and the escapes of the
    original. *)
Theorem successful_move_rekeys_directory (source target : Z) (k : kernel) (entry : allocEntry) :
  snd (nk_carat_move_allocation source target k) = 0 ->
  allocationMap k !! source = Some entry ->
  entry_pointer entry = source ->
  source <> target ->
  allocationMap (fst (nk_carat_move_allocation source target k)) !! source = None /\
  exists e',
    allocationMap (fst (nk_carat_move_allocation source target k)) !! target = Some e' /\
    entry_length e' = entry_length entry /\
    entry_allocToEscapeMap e' = entry_allocToEscapeMap entry.
Proof.
  intros Hok Hf Hp Hne.
  destruct (nk_carat_move_allocation_success_inv _ _ _ Hok) as [Hw _].
  rewrite (nk_carat_move_allocation_found source target k entry Hw Hf). cbn.
  rewrite Hp. split.
  - apply lookup_delete_eq.
  - eexists. split.
    + rewrite lookup_delete_ne by exact Hne. apply lookup_insert_eq.
    + split; reflexivity.
Qed.

(** C9. Length is immutable, the base follows the move.  Whatever a call
    returns, every record of the directory afterwards is either a record
    that was there under the same key, or the record under the target of a
    successful call, whose base is the target and whose length is that of
    the record found under the source; and a successful move to a different
    address does leave that record under the target. *)
Theorem entry_length_immutable (source target : Z) (k : kernel) :
  (forall a e',
     allocationMap (fst (nk_carat_move_allocation source target k)) !! a = Some e' ->
     allocationMap k !! a = Some e' \/
     (snd (nk_carat_move_allocation source target k) = 0 /\ a = target /\
      entry_pointer e' = target /\
      exists e, allocationMap k !! source = Some e /\ entry_length e' = entry_length e)) /\
  (forall e,
     snd (nk_carat_move_allocation source target k) = 0 ->
     allocationMap k !! source = Some e ->
     entry_pointer e = source ->
     source <> target ->
     exists e',
       allocationMap (fst (nk_carat_move_allocation source target k)) !! target = Some e' /\
       entry_pointer e' = target /\ entry_length e' = entry_length e).
Proof.
  split.
  - intros a e' H. unfold nk_carat_move_allocation in *.
    destruct (world_stopped k) eqn:Hw.
    { rewrite path_busy in H by exact Hw. left. exact H. }
    destruct (allocationMap k !! source) as [entry|] eqn:Hf.
    2:{ rewrite path_not_found in H by assumption. left. exact H. }
    fold (nk_carat_move_allocation source target k) in *.
    rewrite (nk_carat_move_allocation_found source target k entry Hw Hf) in *.
    cbn in *. apply lookup_delete_Some in H as [Hne H].
    apply lookup_insert_Some in H as [[<- <-]|[_ H]].
    + right. repeat split; eauto.
    + left. exact H.
  - intros e Hok Hf Hp Hne.
    destruct (nk_carat_move_allocation_success_inv _ _ _ Hok) as [Hw _].
    rewrite (nk_carat_move_allocation_found source target k e Hw Hf). cbn.
    eexists. split.
    + rewrite lookup_delete_ne by congruence. apply lookup_insert_eq.
    + split; reflexivity.
Qed.

(** ** The byte copy *)

Lemma memmove_same (m : memory) (a n x : Z) : memmove m a a n x = m x.
Proof.
  unfold memmove. destruct ((a <=? x) && (x <? a + n)); [f_equal; lia | reflexivity].
Qed.

(** C1. Content preservation, at the scenario of the specification: the
    move from [0x1000] to [0x9000] succeeds, yet the byte at the target is
    the one that was there before, not the [0xAA] of the allocation, and
    the byte of the allocation itself has been overwritten with it. *)
Theorem move_copies_target_over_source :
  snd (nk_carat_move_allocation 0x1000 0x9000 scenario_kernel) = 0 /\
  mem scenario_kernel 0x1000 = 0xAA /\
  mem scenario_kernel 0x9000 = 0x55 /\
  mem (fst (nk_carat_move_allocation 0x1000 0x9000 scenario_kernel)) 0x9000 = 0x55 /\
  mem (fst (nk_carat_move_allocation 0x1000 0x9000 scenario_kernel)) 0x1000 = 0x55.
Proof. vm_compute. repeat split. Qed.

(** ** The degenerate move *)

(** Moving an entry onto its own base adds the new record under the key
    and then removes that key: the call succeeds and the directory has lost
    the entry. *)
Lemma degenerate_move_directory (base : Z) (k : kernel) (entry : allocEntry) :
  world_stopped k = false ->
  allocationMap k !! base = Some entry ->
  entry_pointer entry = base ->
  snd (nk_carat_move_allocation base base k) = 0 /\
  allocationMap (fst (nk_carat_move_allocation base base k)) !! base = None.
Proof.
  intros Hw Hf Hp. rewrite (nk_carat_move_allocation_found base base k entry Hw Hf).
  cbn. rewrite Hp. split; [reflexivity | apply lookup_delete_eq].
Qed.

(** The rest of the state is as the specification says: slots, registers
    and bytes keep their values. *)
Lemma degenerate_move_values (base : Z) (k : kernel) (entry : allocEntry) :
  world_stopped k = false ->
  allocationMap k !! base = Some entry ->
  entry_pointer entry = base ->
  addressable base (entry_length entry) ->
  entry_length entry <= 2^63 ->
  slots_disjoint (entry_allocToEscapeMap entry) = true ->
  (forall e, e ∈ entry_allocToEscapeMap entry ->
     load64 (mem (fst (nk_carat_move_allocation base base k))) e = load64 (mem k) e) /\
  (forall i t, threads k !! i = Some t ->
     exists t', threads (fst (nk_carat_move_allocation base base k)) !! i = Some t' /\
       forall reg, get_reg reg (thread_regs t') = get_reg reg (thread_regs t)).
Proof.
  intros Hw Hf Hp Ha Hl Hd. subst base.
  rewrite (nk_carat_move_allocation_found _ _ k entry Hw Hf). cbn [fst mem threads].
  split.
  - intros e He.
    rewrite (load64_ext _ _ e
               (fun x _ => memmove_same _ (entry_pointer entry) (entry_length entry) x)).
    destruct (patch_fold_slot entry (entry_pointer entry) Ha Hl Ha _ (mem k) e Hd He)
      as [Hin Hout].
    unfold carat_patch_escapes. cbn [fst].
    destruct (Z_le_dec (entry_pointer entry) (load64 (mem k) e)) as [H1|H1];
      [destruct (Z_lt_dec (load64 (mem k) e) (entry_pointer entry + entry_length entry))
         as [H2|H2]|].
    + rewrite Hin by lia. lia.
    + apply Hout. lia.
    + apply Hout. lia.
  - set (base := entry_pointer entry) in *.
    intros i t Hi. exists (fst (handle_thread t
        (mk_move_alloc_state base base (entry_length entry) 0))). split.
    + rewrite list_lookup_fmap, Hi. reflexivity.
    + intros reg. rewrite handle_thread_reg.
      destruct (patched_value_spec (mk_move_alloc_state base base (entry_length entry) 0)
                  (get_reg reg (thread_regs t)) Ha Ha) as [Hin Hout].
      cbn [state_allocationToMove state_allocationTarget state_length] in Hin, Hout.
      destruct (Z_le_dec base (get_reg reg (thread_regs t))) as [H1|H1];
        [destruct (Z_lt_dec (get_reg reg (thread_regs t)) (base + entry_length entry))
           as [H2|H2]|].
      * rewrite Hin by lia. lia.
      * apply Hout. lia.
      * apply Hout. lia.
Qed.

(** C8. Degenerate move, at the entry of the scenario: the entry at
    [0x1000] has length 64 and two escapes; [moveAllocation(0x1000, 0x1000)]
    returns 0 and the directory has no entry under [0x1000] afterwards. *)
Theorem degenerate_move_drops_entry :
  allocationMap scenario_kernel !! 0x1000 = Some scenario_entry /\
  snd (nk_carat_move_allocation 0x1000 0x1000 scenario_kernel) = 0 /\
  allocationMap (fst (nk_carat_move_allocation 0x1000 0x1000 scenario_kernel)) !! 0x1000
    = None.
Proof. vm_compute. repeat split. Qed.

(** ** The scenario of the specification, through the theorems *)

Lemma scenario_blocks :
  addressable 0x1000 64 /\ addressable 0x9000 64.
Proof. unfold addressable. lia. Defined.

(** The slot at [0x2000] held [0x1010] and holds [0x9010]; the slot at
    [0x2008] held [0x5000] and still does. *)
Lemma carat_patch_escapes_correct_witness :
  addressable (entry_pointer scenario_entry) (entry_length scenario_entry) /\
  entry_length scenario_entry <= 2^63 /\
  addressable 0x9000 (entry_length scenario_entry) /\
  slots_disjoint (entry_allocToEscapeMap scenario_entry) = true /\
  0x2000 ∈ entry_allocToEscapeMap scenario_entry /\
  0x2008 ∈ entry_allocToEscapeMap scenario_entry /\
  load64 (fst (carat_patch_escapes scenario_entry 0x9000 scenario_mem)) 0x2000 = 0x9010 /\
  load64 (fst (carat_patch_escapes scenario_entry 0x9000 scenario_mem)) 0x2008 = 0x5000.
Proof.
  assert (Hs : addressable (entry_pointer scenario_entry) (entry_length scenario_entry))
    by exact (proj1 scenario_blocks).
  assert (Hl : entry_length scenario_entry <= 2^63) by (cbn; lia).
  assert (Ht : addressable 0x9000 (entry_length scenario_entry))
    by exact (proj2 scenario_blocks).
  assert (Hd : slots_disjoint (entry_allocToEscapeMap scenario_entry) = true)
    by reflexivity.
  assert (HA : 0x2000 ∈ entry_allocToEscapeMap scenario_entry) by (cbn; left).
  assert (HB : 0x2008 ∈ entry_allocToEscapeMap scenario_entry) by (cbn; right; left).
  assert (HvA : load64 scenario_mem 0x2000 = 0x1010) by (vm_compute; reflexivity).
  assert (HvB : load64 scenario_mem 0x2008 = 0x5000) by (vm_compute; reflexivity).
  repeat (split; [assumption|]). split.
  - destruct (carat_patch_escapes_correct scenario_entry 0x9000 scenario_mem 0x2000
                Hs Hl Ht Hd HA) as [Hin _].
    cbv zeta in Hin. rewrite HvA in Hin. rewrite Hin; cbn; lia.
  - destruct (carat_patch_escapes_correct scenario_entry 0x9000 scenario_mem 0x2008
                Hs Hl Ht Hd HB) as [_ Hout].
    cbv zeta in Hout. rewrite HvB in Hout. rewrite Hout; cbn; lia.
Defined.

(** The thread of the scenario: [rax] pointed into the block and follows
    it, [rbx] did not, and [rsp], which also pointed into it, is left. *)
Lemma thread_pass_register_correct_witness :
  addressable 0x1000 64 /\ addressable 0x9000 64 /\
  [scenario_thread] !! 0%nat = Some scenario_thread /\
  exists t',
    fst (nk_sched_map_threads (-1) handle_thread [scenario_thread]
           (mk_move_alloc_state 0x1000 0x9000 64 0)) !! 0%nat = Some t' /\
    get_reg RAX (thread_regs t') = 0x9020 /\
    get_reg RBX (thread_regs t') = 0x7777 /\
    rsp (thread_regs t') = 0x1030 /\
    rip (thread_regs t') = 0x400000.
Proof.
  destruct scenario_blocks as [Hs Ht].
  split; [exact Hs|]. split; [exact Ht|]. split; [reflexivity|].
  destruct (thread_pass_register_correct [scenario_thread]
              (mk_move_alloc_state 0x1000 0x9000 64 0) 0 scenario_thread Hs Ht eq_refl)
    as (t' & Hlk & Hregs & Hrsp & Hrip & _).
  exists t'. split; [exact Hlk|]. split; [|split; [|split]].
  - destruct (Hregs RAX) as [Hin _]. cbn in Hin |- *. rewrite Hin; lia.
  - destruct (Hregs RBX) as [_ Hout]. cbn in Hout |- *. rewrite Hout; lia.
  - rewrite Hrsp. reflexivity.
  - rewrite Hrip. reflexivity.
Defined.

(** Both passes fail here; the world is started again all the same. *)
Lemma world_resumed_exactly_once_witness :
  world_stopped scenario_kernel = false /\
  sched_log (fst (move_allocation_with failing_patch_escapes failing_thread_func
                    0x1000 0x9000 scenario_kernel)) = [StopWorld; StartWorld] /\
  world_stopped (fst (move_allocation_with failing_patch_escapes failing_thread_func
                        0x1000 0x9000 scenario_kernel)) = false.
Proof.
  split; [reflexivity|].
  destruct (world_resumed_exactly_once failing_patch_escapes failing_thread_func
              0x1000 0x9000 scenario_kernel eq_refl) as (Hl & _ & Hs).
  split; [exact Hl | exact Hs].
Defined.

Lemma found_entry_always_succeeds_witness :
  world_stopped scenario_kernel = false /\
  allocationMap scenario_kernel !! 0x1000 = Some scenario_entry /\
  snd (nk_carat_move_allocation 0x1000 0x9000 scenario_kernel) = 0.
Proof.
  split; [reflexivity|]. split; [reflexivity|].
  exact (proj2 (proj2 (found_entry_always_succeeds 0x1000 0x9000 scenario_kernel
                         scenario_entry eq_refl eq_refl))).
Defined.

(** [moveAllocation(0xDEAD, 0xBEEF)] on the scenario. *)
Lemma not_found_is_a_noop_witness :
  allocationMap scenario_kernel !! 0xDEAD = None /\
  snd (nk_carat_move_allocation 0xDEAD 0xBEEF scenario_kernel) = -1 /\
  allocationMap (fst (nk_carat_move_allocation 0xDEAD 0xBEEF scenario_kernel))
    = allocationMap scenario_kernel /\
  sched_log (fst (nk_carat_move_allocation 0xDEAD 0xBEEF scenario_kernel))
    = [StopWorld; StartWorld].
Proof.
  split; [reflexivity|].
  destruct (not_found_is_a_noop 0xDEAD 0xBEEF scenario_kernel eq_refl)
    as (Hrc & Hd & _ & _ & _ & Hlog).
  split; [exact Hrc|]. split; [exact Hd|]. exact (Hlog eq_refl).
Defined.

(** The thread callback sets the flag: the call fails, the entry is still
    under [0x1000], and the slot at [0x2000] keeps the rewritten value. *)
Lemma thread_failure_keeps_escape_patches_witness :
  world_stopped scenario_kernel = false /\
  allocationMap scenario_kernel !! 0x1000 = Some scenario_entry /\
  state_failed (snd (nk_sched_map_threads (-1) failing_thread_func
     (threads scenario_kernel)
     (mk_move_alloc_state 0x1000 0x9000 (entry_length scenario_entry) 0))) <> 0 /\
  snd (move_allocation_with carat_patch_escapes failing_thread_func
         0x1000 0x9000 scenario_kernel) = -1 /\
  allocationMap (fst (move_allocation_with carat_patch_escapes failing_thread_func
                        0x1000 0x9000 scenario_kernel)) !! 0x1000 = Some scenario_entry /\
  load64 (mem (fst (move_allocation_with carat_patch_escapes failing_thread_func
                      0x1000 0x9000 scenario_kernel))) 0x2000 = 0x9010.
Proof.
  assert (Hm : state_failed (snd (nk_sched_map_threads (-1) failing_thread_func
     (threads scenario_kernel)
     (mk_move_alloc_state 0x1000 0x9000 (entry_length scenario_entry) 0))) <> 0)
    by (cbn; discriminate).
  split; [reflexivity|]. split; [reflexivity|]. split; [exact Hm|].
  destruct (thread_failure_keeps_escape_patches failing_thread_func 0x1000 0x9000
              scenario_kernel scenario_entry eq_refl eq_refl Hm)
    as (Hrc & _ & Hd & Hmem).
  split; [exact Hrc|]. split; [exact Hd|].
  rewrite Hmem. vm_compute. reflexivity.
Defined.

Lemma successful_move_rekeys_directory_witness :
  snd (nk_carat_move_allocation 0x1000 0x9000 scenario_kernel) = 0 /\
  allocationMap scenario_kernel !! 0x1000 = Some scenario_entry /\
  entry_pointer scenario_entry = 0x1000 /\
  0x1000 <> 0x9000 /\
  allocationMap (fst (nk_carat_move_allocation 0x1000 0x9000 scenario_kernel)) !! 0x1000
    = None /\
  exists e',
    allocationMap (fst (nk_carat_move_allocation 0x1000 0x9000 scenario_kernel)) !! 0x9000
      = Some e' /\
    entry_length e' = 64 /\
    entry_allocToEscapeMap e' = [0x2000; 0x2008].
Proof.
  assert (Hok : snd (nk_carat_move_allocation 0x1000 0x9000 scenario_kernel) = 0)
    by (vm_compute; reflexivity).
  assert (Hne : 0x1000 <> 0x9000) by discriminate.
  split; [exact Hok|]. split; [reflexivity|]. split; [reflexivity|]. split; [exact Hne|].
  exact (successful_move_rekeys_directory 0x1000 0x9000 scenario_kernel scenario_entry
           Hok eq_refl eq_refl Hne).
Defined.

Lemma entry_length_immutable_witness :
  snd (nk_carat_move_allocation 0x1000 0x9000 scenario_kernel) = 0 /\
  allocationMap scenario_kernel !! 0x1000 = Some scenario_entry /\
  exists e',
    allocationMap (fst (nk_carat_move_allocation 0x1000 0x9000 scenario_kernel)) !! 0x9000
      = Some e' /\
    entry_pointer e' = 0x9000 /\ entry_length e' = 64.
Proof.
  assert (Hok : snd (nk_carat_move_allocation 0x1000 0x9000 scenario_kernel) = 0)
    by (vm_compute; reflexivity).
  assert (Hne : 0x1000 <> 0x9000) by discriminate.
  split; [exact Hok|]. split; [reflexivity|].
  exact (proj2 (entry_length_immutable 0x1000 0x9000 scenario_kernel) scenario_entry
           Hok eq_refl eq_refl Hne).
Defined.

(** * Further properties of the passes *)

(** ** What the escape pass writes *)

Lemma patch_escape_frame (entry : allocEntry) (t : Z) (m : memory) (e x : Z) :
  ~ in_slot e x -> patch_escape entry t m e x = m x.
Proof.
  unfold in_slot, patch_escape, store64. intros H.
  destruct (0 <=? _); [|reflexivity].
  destruct (e <=? x) eqn:E1; destruct (x <? e + 8) eqn:E2; simpl; try reflexivity.
  apply Z.leb_le in E1. apply Z.ltb_lt in E2. lia.
Qed.

Lemma patch_fold_frame (entry : allocEntry) (t : Z) (l : list Z) (m : memory) (x : Z) :
  (forall e, e ∈ l -> ~ in_slot e x) ->
  fold_left (patch_escape entry t) l m x = m x.
Proof.
  revert m. induction l as [|a l IH]; intros m H; [reflexivity|].
  simpl. rewrite IH.
  - apply patch_escape_frame, H. left.
  - intros e He. apply H. right. exact He.
Qed.

(** The pass writes nowhere but in the slots of the entry: a byte that
    belongs to none of them keeps its value. *)
Theorem carat_patch_escapes_frame (entry : allocEntry) (t : Z) (m : memory) (x : Z) :
  (forall e, e ∈ entry_allocToEscapeMap entry -> ~ in_slot e x) ->
  fst (carat_patch_escapes entry t m) x = m x.
Proof. intros H. unfold carat_patch_escapes. cbn [fst]. apply patch_fold_frame, H. Qed.

Lemma scenario_slots_miss (x : Z) :
  x < 0x2000 \/ 0x2010 <= x ->
  forall e, e ∈ entry_allocToEscapeMap scenario_entry -> ~ in_slot e x.
Proof.
  intros Hx e He. unfold in_slot. cbn in He.
  apply elem_of_cons in He as [->|He]; [lia|].
  apply elem_of_cons in He as [->|He]; [lia|].
  inversion He.
Defined.

Lemma carat_patch_escapes_frame_witness :
  (forall e, e ∈ entry_allocToEscapeMap scenario_entry -> ~ in_slot e 0x1008) /\
  fst (carat_patch_escapes scenario_entry 0x9000 scenario_mem) 0x1008 = 0xAA.
Proof.
  assert (H := scenario_slots_miss 0x1008 ltac:(lia)).
  split; [exact H|].
  rewrite (carat_patch_escapes_frame scenario_entry 0x9000 scenario_mem 0x1008 H).
  reflexivity.
Defined.

(** ** Stale slots are harmless *)

Lemma patch_fold_identity (entry : allocEntry) (t : Z) (l : list Z) (m : memory) :
  addressable (entry_pointer entry) (entry_length entry) ->
  (forall e, e ∈ l ->
     ~ (entry_pointer entry <= load64 m e < entry_pointer entry + entry_length entry)) ->
  fold_left (patch_escape entry t) l m = m.
Proof.
  intros Ha. induction l as [|a l IH]; intros H; [reflexivity|].
  simpl. rewrite (patch_escape_outside entry t Ha m a) by (apply H; left).
  apply IH. intros e He. apply H. right. exact He.
Qed.

(** When no slot of the entry holds a pointer into its block, the pass is
    the identity on memory. *)
Theorem carat_patch_escapes_no_alias (entry : allocEntry) (t : Z) (m : memory) :
  addressable (entry_pointer entry) (entry_length entry) ->
  (forall e, e ∈ entry_allocToEscapeMap entry ->
     ~ (entry_pointer entry <= load64 m e < entry_pointer entry + entry_length entry)) ->
  fst (carat_patch_escapes entry t m) = m.
Proof. intros Ha H. unfold carat_patch_escapes. cbn [fst]. apply patch_fold_identity; assumption. Qed.

(** The entry of the scenario, with only the slot that holds [0x5000]. *)
Lemma carat_patch_escapes_no_alias_witness :
  addressable 0x1000 64 /\
  (forall e, e ∈ [0x2008] -> ~ (0x1000 <= load64 scenario_mem e < 0x1000 + 64)) /\
  fst (carat_patch_escapes (mk_allocEntry 0x1000 64 [0x2008]) 0x9000 scenario_mem)
    = scenario_mem.
Proof.
  assert (Ha : addressable 0x1000 64) by exact (proj1 scenario_blocks).
  assert (H : forall e, e ∈ [0x2008] ->
            ~ (0x1000 <= load64 scenario_mem e < 0x1000 + 64)).
  { intros e He. apply elem_of_cons in He as [->|He]; [|inversion He].
    assert (Hv : load64 scenario_mem 0x2008 = 0x5000) by (vm_compute; reflexivity).
    rewrite Hv. lia. }
  split; [exact Ha|]. split; [exact H|].
  exact (carat_patch_escapes_no_alias (mk_allocEntry 0x1000 64 [0x2008]) 0x9000
           scenario_mem Ha H).
Defined.

(** ** The order of the escapes does not matter *)

Lemma patch_escape_same_slot (entry : allocEntry) (t : Z) (m m' : memory) (e x : Z) :
  load64 m' e = load64 m e -> m' x = m x ->
  patch_escape entry t m' e x = patch_escape entry t m e x.
Proof.
  intros Hl Hx. unfold patch_escape. rewrite Hl.
  destruct (0 <=? _); [|exact Hx].
  unfold store64. rewrite Hx. reflexivity.
Qed.

(** A byte of a slot of the list is what the patch of that slot alone
    leaves there. *)
Lemma patch_fold_slot_byte (entry : allocEntry) (t : Z) (l : list Z) (m : memory) (e x : Z) :
  slots_disjoint l = true -> e ∈ l -> in_slot e x ->
  fold_left (patch_escape entry t) l m x = patch_escape entry t m e x.
Proof.
  revert m. induction l as [|a l IH]; intros m Hd He Hx; [inversion He|].
  simpl in Hd. apply andb_prop in Hd as [Ha Hl]. simpl.
  apply elem_of_cons in He as [->|He].
  - apply patch_fold_frame. intros b Hb Hbx.
    pose proof (slots_disjoint_elem l a b Ha Hb). unfold in_slot in *. lia.
  - rewrite (IH _ Hl He Hx).
    pose proof (slots_disjoint_elem l a e Ha He) as Hae.
    apply patch_escape_same_slot.
    + apply patch_escape_other. exact Hae.
    + apply patch_escape_frame. unfold in_slot in *. lia.
Qed.

Lemma slots_disjoint_perm (l l' : list Z) :
  l ≡ₚ l' -> slots_disjoint l = true -> slots_disjoint l' = true.
Proof.
  induction 1 as [|x l l' Hp IH|x y l|l l' l'' _ IH1 _ IH2]; intros H.
  - reflexivity.
  - simpl in *. apply andb_prop in H as [Hx Hl].
    apply andb_true_intro. split; [|apply IH, Hl].
    rewrite forallb_forall in *. intros b Hb. apply Hx.
    apply (Permutation_in b (Permutation_sym Hp)), Hb.
  - simpl in *.
    apply andb_prop in H as [H1 H2]. apply andb_prop in H1 as [Hyx Hy].
    apply andb_prop in H2 as [Hx Hl].
    rewrite Hx, Hy, Hl, orb_comm, Hyx. reflexivity.
  - apply IH2, IH1, H.
Qed.

(** Two entries for the same block whose escapes are the same distinct
    slots in a different order are patched to the same memory. *)
Theorem carat_patch_escapes_order_irrelevant (base len t : Z) (l l' : list Z)
    (m : memory) (x : Z) :
  l ≡ₚ l' ->
  slots_disjoint l = true ->
  fst (carat_patch_escapes (mk_allocEntry base len l) t m) x =
  fst (carat_patch_escapes (mk_allocEntry base len l') t m) x.
Proof.
  intros Hp Hd. unfold carat_patch_escapes. cbn [fst entry_allocToEscapeMap].
  pose proof (slots_disjoint_perm l l' Hp Hd) as Hd'.
  set (E := mk_allocEntry base len l). set (E' := mk_allocEntry base len l').
  assert (HE : forall m0 e, patch_escape E' t m0 e = patch_escape E t m0 e) by reflexivity.
  destruct (decide (Exists (fun e => in_slot e x) l)) as [Hex|Hno].
  - apply Exists_exists in Hex as (e & He & Hx).
    rewrite (patch_fold_slot_byte E t l m e x Hd He Hx).
    rewrite (patch_fold_slot_byte E' t l' m e x Hd').
    + rewrite HE. reflexivity.
    + rewrite <- Hp. exact He.
    + exact Hx.
  - rewrite !patch_fold_frame; [reflexivity| |].
    + intros e He Hx. apply Hno, Exists_exists. exists e. split; [|exact Hx].
      rewrite Hp. exact He.
    + intros e He Hx. apply Hno, Exists_exists. eauto.
Qed.

Lemma carat_patch_escapes_order_irrelevant_witness :
  [0x2000; 0x2008] ≡ₚ [0x2008; 0x2000] /\
  slots_disjoint [0x2000; 0x2008] = true /\
  fst (carat_patch_escapes (mk_allocEntry 0x1000 64 [0x2000; 0x2008]) 0x9000
         scenario_mem) 0x2000 =
  fst (carat_patch_escapes (mk_allocEntry 0x1000 64 [0x2008; 0x2000]) 0x9000
         scenario_mem) 0x2000.
Proof.
  assert (Hp : [0x2000; 0x2008] ≡ₚ [0x2008; 0x2000]) by apply perm_swap.
  split; [exact Hp|]. split; [reflexivity|].
  exact (carat_patch_escapes_order_irrelevant 0x1000 64 0x9000 _ _ scenario_mem 0x2000
           Hp eq_refl).
Defined.

(** ** After the pass no slot points into the old block *)

Section DisjointMove.
Variable entry : allocEntry.
Variable target : Z.

Let base := entry_pointer entry.
Let len := entry_length entry.

Hypothesis Hsrc : addressable base len.
Hypothesis Hlen : len <= 2^63.
Hypothesis Htgt : addressable target len.
Hypothesis Hblocks : blocks_disjoint base target len.
Hypothesis Hslots : slots_disjoint (entry_allocToEscapeMap entry) = true.

Lemma patch_fold_leaves_no_alias (m : memory) (e : Z) :
  e ∈ entry_allocToEscapeMap entry ->
  ~ (base <= load64 (fold_left (patch_escape entry target)
                       (entry_allocToEscapeMap entry) m) e < base + len).
Proof using Hsrc Hlen Htgt Hblocks Hslots.
  intros He.
  destruct (patch_fold_slot entry target Hsrc Hlen Htgt _ m e Hslots He) as [Hin Hout].
  cbv zeta in Hin, Hout. fold base len in Hin, Hout.
  unfold blocks_disjoint in Hblocks.
  destruct (Z_le_dec base (load64 m e)) as [H1|H1];
    [destruct (Z_lt_dec (load64 m e) (base + len)) as [H2|H2]|].
  - rewrite Hin by lia. lia.
  - rewrite Hout by lia. lia.
  - rewrite Hout by lia. lia.
Qed.
End DisjointMove.

(** When the target block does not overlap the block of the entry, no slot
    of the entry holds a pointer into the old block after the pass. *)
Theorem carat_patch_escapes_leaves_no_alias (entry : allocEntry) (t : Z) (m : memory) (e : Z) :
  addressable (entry_pointer entry) (entry_length entry) ->
  entry_length entry <= 2^63 ->
  addressable t (entry_length entry) ->
  blocks_disjoint (entry_pointer entry) t (entry_length entry) ->
  slots_disjoint (entry_allocToEscapeMap entry) = true ->
  e ∈ entry_allocToEscapeMap entry ->
  ~ (entry_pointer entry <= load64 (fst (carat_patch_escapes entry t m)) e
       < entry_pointer entry + entry_length entry).
Proof.
  intros Hs Hl Ht Hb Hd He. unfold carat_patch_escapes. cbn [fst].
  apply patch_fold_leaves_no_alias; assumption.
Qed.

(** Under the same conditions a second pass changes nothing. *)
Theorem carat_patch_escapes_idempotent (entry : allocEntry) (t : Z) (m : memory) :
  addressable (entry_pointer entry) (entry_length entry) ->
  entry_length entry <= 2^63 ->
  addressable t (entry_length entry) ->
  blocks_disjoint (entry_pointer entry) t (entry_length entry) ->
  slots_disjoint (entry_allocToEscapeMap entry) = true ->
  fst (carat_patch_escapes entry t (fst (carat_patch_escapes entry t m))) =
  fst (carat_patch_escapes entry t m).
Proof.
  intros Hs Hl Ht Hb Hd. unfold carat_patch_escapes. cbn [fst].
  apply patch_fold_identity; [exact Hs|].
  intros e He. apply patch_fold_leaves_no_alias; assumption.
Qed.

Lemma scenario_blocks_disjoint : blocks_disjoint 0x1000 0x9000 64.
Proof. unfold blocks_disjoint. lia. Defined.

Lemma carat_patch_escapes_leaves_no_alias_witness :
  addressable (entry_pointer scenario_entry) (entry_length scenario_entry) /\
  entry_length scenario_entry <= 2^63 /\
  addressable 0x9000 (entry_length scenario_entry) /\
  blocks_disjoint (entry_pointer scenario_entry) 0x9000 (entry_length scenario_entry) /\
  slots_disjoint (entry_allocToEscapeMap scenario_entry) = true /\
  0x2000 ∈ entry_allocToEscapeMap scenario_entry /\
  ~ (0x1000 <= load64 (fst (carat_patch_escapes scenario_entry 0x9000 scenario_mem)) 0x2000
       < 0x1000 + 64).
Proof.
  destruct scenario_blocks as [Hs Ht].
  assert (Hl : entry_length scenario_entry <= 2^63) by (cbn; lia).
  assert (HA : 0x2000 ∈ entry_allocToEscapeMap scenario_entry) by (cbn; left).
  repeat (split; [first [exact Hs | exact Ht | exact Hl | exact scenario_blocks_disjoint
                        | exact HA | reflexivity]|]).
  exact (carat_patch_escapes_leaves_no_alias scenario_entry 0x9000 scenario_mem 0x2000
           Hs Hl Ht scenario_blocks_disjoint eq_refl HA).
Defined.

Lemma carat_patch_escapes_idempotent_witness :
  addressable (entry_pointer scenario_entry) (entry_length scenario_entry) /\
  entry_length scenario_entry <= 2^63 /\
  addressable 0x9000 (entry_length scenario_entry) /\
  blocks_disjoint (entry_pointer scenario_entry) 0x9000 (entry_length scenario_entry) /\
  slots_disjoint (entry_allocToEscapeMap scenario_entry) = true /\
  fst (carat_patch_escapes scenario_entry 0x9000
         (fst (carat_patch_escapes scenario_entry 0x9000 scenario_mem))) =
  fst (carat_patch_escapes scenario_entry 0x9000 scenario_mem).
Proof.
  destruct scenario_blocks as [Hs Ht].
  assert (Hl : entry_length scenario_entry <= 2^63) by (cbn; lia).
  repeat (split; [first [exact Hs | exact Ht | exact Hl | exact scenario_blocks_disjoint
                        | reflexivity]|]).
  exact (carat_patch_escapes_idempotent scenario_entry 0x9000 scenario_mem
           Hs Hl Ht scenario_blocks_disjoint eq_refl).
Defined.

(** ** Further properties of the thread pass *)

Lemma patched_value_leaves_block (state : move_alloc_state) (v : Z) :
  addressable (state_allocationToMove state) (state_length state) ->
  addressable (state_allocationTarget state) (state_length state) ->
  blocks_disjoint (state_allocationToMove state) (state_allocationTarget state)
    (state_length state) ->
  ~ (state_allocationToMove state <= patched_value state v
       < state_allocationToMove state + state_length state).
Proof.
  intros Hs Ht Hb. destruct (patched_value_spec state v Hs Ht) as [Hin Hout].
  unfold blocks_disjoint in Hb.
  destruct (Z_le_dec (state_allocationToMove state) v) as [H1|H1];
    [destruct (Z_lt_dec v (state_allocationToMove state + state_length state)) as [H2|H2]|].
  - rewrite Hin by lia. lia.
  - rewrite Hout by lia. lia.
  - rewrite Hout by lia. lia.
Qed.

(** When the target block does not overlap the moved block, no tracked
    register of any thread points into the moved block after the pass. *)
Theorem thread_pass_leaves_no_alias (ts : list nk_thread) (state : move_alloc_state)
    (i : nat) (t' : nk_thread) (reg : gpr) :
  addressable (state_allocationToMove state) (state_length state) ->
  addressable (state_allocationTarget state) (state_length state) ->
  blocks_disjoint (state_allocationToMove state) (state_allocationTarget state)
    (state_length state) ->
  fst (nk_sched_map_threads (-1) handle_thread ts state) !! i = Some t' ->
  ~ (state_allocationToMove state <= get_reg reg (thread_regs t')
       < state_allocationToMove state + state_length state).
Proof.
  intros Hs Ht Hb Hi. rewrite map_threads_handle_thread in Hi. cbn [fst] in Hi.
  rewrite list_lookup_fmap in Hi.
  destruct (ts !! i) as [t|]; [|discriminate Hi].
  assert (Ht' : t' = fst (handle_thread t state))
    by (cbv [fmap option_fmap option_map] in Hi; congruence).
  rewrite Ht'.
  rewrite handle_thread_reg. apply patched_value_leaves_block; assumption.
Qed.

Lemma thread_pass_leaves_no_alias_witness :
  addressable 0x1000 64 /\ addressable 0x9000 64 /\ blocks_disjoint 0x1000 0x9000 64 /\
  fst (nk_sched_map_threads (-1) handle_thread [scenario_thread]
         (mk_move_alloc_state 0x1000 0x9000 64 0)) !! 0%nat =
    Some (fst (handle_thread scenario_thread (mk_move_alloc_state 0x1000 0x9000 64 0))) /\
  ~ (0x1000 <= get_reg RAX (thread_regs (fst (handle_thread scenario_thread
                 (mk_move_alloc_state 0x1000 0x9000 64 0)))) < 0x1000 + 64).
Proof.
  destruct scenario_blocks as [Hs Ht].
  split; [exact Hs|]. split; [exact Ht|]. split; [exact scenario_blocks_disjoint|].
  split; [reflexivity|].
  exact (thread_pass_leaves_no_alias [scenario_thread]
           (mk_move_alloc_state 0x1000 0x9000 64 0) 0 _ RAX
           Hs Ht scenario_blocks_disjoint eq_refl).
Defined.

Lemma nk_regs_ext (r1 r2 : nk_regs) :
  (forall reg, get_reg reg r1 = get_reg reg r2) ->
  rip r1 = rip r2 -> rsp r1 = rsp r2 -> r1 = r2.
Proof.
  intros H Hip Hsp. destruct r1, r2. cbn in Hip, Hsp.
  pose proof (H R15). pose proof (H R14). pose proof (H R13). pose proof (H R12).
  pose proof (H R11). pose proof (H R10). pose proof (H R9). pose proof (H R8).
  pose proof (H RBP). pose proof (H RDI). pose proof (H RSI). pose proof (H RDX).
  pose proof (H RCX). pose proof (H RBX). pose proof (H RAX).
  cbn in *. subst. reflexivity.
Qed.

Lemma handle_thread_twice (t : nk_thread) (state : move_alloc_state) :
  addressable (state_allocationToMove state) (state_length state) ->
  addressable (state_allocationTarget state) (state_length state) ->
  blocks_disjoint (state_allocationToMove state) (state_allocationTarget state)
    (state_length state) ->
  fst (handle_thread (fst (handle_thread t state)) state) = fst (handle_thread t state).
Proof.
  intros Hs Ht Hb.
  assert (Hregs : thread_regs (fst (handle_thread (fst (handle_thread t state)) state)) =
                  thread_regs (fst (handle_thread t state))).
  { apply nk_regs_ext.
    - intros reg. rewrite (handle_thread_reg (fst (handle_thread t state))).
      apply (patched_value_spec state _ Hs Ht).
      rewrite handle_thread_reg. apply patched_value_leaves_block; assumption.
    - apply handle_thread_rip.
    - apply handle_thread_rsp. }
  set (T := fst (handle_thread t state)) in *.
  change (fst (handle_thread T state)) with
    (mk_nk_thread (thread_cpu T) (thread_rsp T)
       (thread_regs (fst (handle_thread T state)))).
  rewrite Hregs. reflexivity.
Qed.

(** When the target block does not overlap the moved block, running the
    thread pass a second time changes no thread. *)
Theorem thread_pass_idempotent (ts : list nk_thread) (state : move_alloc_state) :
  addressable (state_allocationToMove state) (state_length state) ->
  addressable (state_allocationTarget state) (state_length state) ->
  blocks_disjoint (state_allocationToMove state) (state_allocationTarget state)
    (state_length state) ->
  fst (nk_sched_map_threads (-1) handle_thread
         (fst (nk_sched_map_threads (-1) handle_thread ts state)) state) =
  fst (nk_sched_map_threads (-1) handle_thread ts state).
Proof.
  intros Hs Ht Hb. rewrite !map_threads_handle_thread. cbn [fst].
  rewrite map_map. apply map_ext. intros t. apply handle_thread_twice; assumption.
Qed.

Lemma thread_pass_idempotent_witness :
  addressable 0x1000 64 /\ addressable 0x9000 64 /\ blocks_disjoint 0x1000 0x9000 64 /\
  fst (nk_sched_map_threads (-1) handle_thread
         (fst (nk_sched_map_threads (-1) handle_thread [scenario_thread]
                 (mk_move_alloc_state 0x1000 0x9000 64 0)))
         (mk_move_alloc_state 0x1000 0x9000 64 0)) =
  fst (nk_sched_map_threads (-1) handle_thread [scenario_thread]
         (mk_move_alloc_state 0x1000 0x9000 64 0)).
Proof.
  destruct scenario_blocks as [Hs Ht].
  split; [exact Hs|]. split; [exact Ht|]. split; [exact scenario_blocks_disjoint|].
  exact (thread_pass_idempotent [scenario_thread]
           (mk_move_alloc_state 0x1000 0x9000 64 0) Hs Ht scenario_blocks_disjoint).
Defined.

(** ** Further properties of the directory update *)

(** [carat_update_entry] always returns 0 and leaves no record under
    [entry->pointer]; when that key is not the target, the record under the
    target is the new one; every other key keeps what it had. *)
Theorem carat_update_entry_effect (entry : allocEntry) (target : Z) (d : gmap Z allocEntry) :
  snd (carat_update_entry entry target d) = 0 /\
  fst (carat_update_entry entry target d) !! entry_pointer entry = None /\
  (entry_pointer entry <> target ->
   fst (carat_update_entry entry target d) !! target =
     Some (mk_allocEntry target (entry_length entry) (entry_allocToEscapeMap entry))) /\
  (forall a, a <> target -> a <> entry_pointer entry ->
   fst (carat_update_entry entry target d) !! a = d !! a).
Proof.
  unfold carat_update_entry, nk_slist_add, nk_slist_remove. cbn [fst snd].
  split; [reflexivity|]. split; [apply lookup_delete_eq|]. split.
  - intros Hne. rewrite lookup_delete_ne by exact Hne. apply lookup_insert_eq.
  - intros a Ht Hp. rewrite lookup_delete_ne by congruence.
    apply lookup_insert_ne. congruence.
Qed.

Lemma carat_update_entry_keyed (entry : allocEntry) (target : Z) (d : gmap Z allocEntry) :
  keyed_by_base d -> keyed_by_base (fst (carat_update_entry entry target d)).
Proof.
  intros Hk a e H. unfold carat_update_entry, nk_slist_add, nk_slist_remove in H.
  cbn [fst] in H. apply lookup_delete_Some in H as [_ H].
  apply lookup_insert_Some in H as [[<- <-]|[_ H]]; [reflexivity | exact (Hk _ _ H)].
Qed.

(** The directory update keeps the invariant that every record sits under
    its own base. *)
Theorem carat_update_entry_keeps_keys (entry : allocEntry) (target : Z)
    (d : gmap Z allocEntry) :
  keyed_by_base d -> keyed_by_base (fst (carat_update_entry entry target d)).
Proof. apply carat_update_entry_keyed. Qed.

Lemma scenario_keyed : keyed_by_base (allocationMap scenario_kernel).
Proof.
  intros a e H. cbn in H. apply lookup_singleton_Some in H as [<- <-]. reflexivity.
Defined.

Lemma carat_update_entry_keeps_keys_witness :
  keyed_by_base (allocationMap scenario_kernel) /\
  keyed_by_base (fst (carat_update_entry scenario_entry 0x9000
                        (allocationMap scenario_kernel))).
Proof.
  split; [exact scenario_keyed|].
  exact (carat_update_entry_keeps_keys scenario_entry 0x9000 _ scenario_keyed).
Defined.

(** Re-keying a record that is in the directory to a key that is free
    keeps the number of records. *)
Theorem carat_update_entry_size (entry : allocEntry) (target : Z) (d : gmap Z allocEntry) :
  d !! entry_pointer entry = Some entry ->
  d !! target = None ->
  size (fst (carat_update_entry entry target d)) = size d.
Proof.
  intros Hp Ht. unfold carat_update_entry, nk_slist_add, nk_slist_remove. cbn [fst].
  assert (Hne : entry_pointer entry <> target) by congruence.
  rewrite map_size_delete_Some.
  - rewrite map_size_insert_None by exact Ht. reflexivity.
  - rewrite lookup_insert_ne by congruence. rewrite Hp. eauto.
Qed.

Lemma carat_update_entry_size_witness :
  allocationMap scenario_kernel !! entry_pointer scenario_entry = Some scenario_entry /\
  allocationMap scenario_kernel !! 0x9000 = None /\
  size (fst (carat_update_entry scenario_entry 0x9000 (allocationMap scenario_kernel)))
    = 1%nat.
Proof.
  split; [reflexivity|]. split; [reflexivity|].
  rewrite (carat_update_entry_size scenario_entry 0x9000 (allocationMap scenario_kernel)
             eq_refl eq_refl).
  reflexivity.
Defined.

(** ** Further properties of the whole call *)

(** The call returns 0 or -1; it returns 0 exactly when the world was not
    already stopped and the source has an entry; and when the world was
    already stopped it changes nothing, the scheduler log included. *)
Theorem nk_carat_move_allocation_result (source target : Z) (k : kernel) :
  (snd (nk_carat_move_allocation source target k) = 0 \/
   snd (nk_carat_move_allocation source target k) = -1) /\
  (snd (nk_carat_move_allocation source target k) = 0 <->
   world_stopped k = false /\ is_Some (allocationMap k !! source)) /\
  (world_stopped k = true -> nk_carat_move_allocation source target k = (k, -1)).
Proof.
  split; [|split].
  - unfold nk_carat_move_allocation. destruct (world_stopped k) eqn:Hw.
    + rewrite path_busy by exact Hw. right. reflexivity.
    + destruct (allocationMap k !! source) as [entry|] eqn:Hf.
      * fold (nk_carat_move_allocation source target k).
        rewrite (nk_carat_move_allocation_found source target k entry Hw Hf).
        left. reflexivity.
      * rewrite path_not_found by assumption. right. reflexivity.
  - split.
    + intros H. destruct (nk_carat_move_allocation_success_inv _ _ _ H) as [Hw [e He]].
      split; [exact Hw | rewrite He; eauto].
    + intros [Hw [e He]].
      rewrite (nk_carat_move_allocation_found source target k e Hw He). reflexivity.
  - intros Hw. unfold nk_carat_move_allocation. apply path_busy. exact Hw.
Qed.

(** Whatever the call returns, the directory afterwards still has every
    record under its own base if it had before. *)
Theorem nk_carat_move_allocation_keeps_keys (source target : Z) (k : kernel) :
  keyed_by_base (allocationMap k) ->
  keyed_by_base (allocationMap (fst (nk_carat_move_allocation source target k))).
Proof.
  intros Hk. destruct (world_stopped k) eqn:Hw.
  - unfold nk_carat_move_allocation. rewrite path_busy by exact Hw. exact Hk.
  - destruct (allocationMap k !! source) as [entry|] eqn:Hf.
    + rewrite (nk_carat_move_allocation_found source target k entry Hw Hf).
      cbn [fst allocationMap].
      exact (carat_update_entry_keyed entry target (allocationMap k) Hk).
    + unfold nk_carat_move_allocation. rewrite path_not_found by assumption. exact Hk.
Qed.

Lemma nk_carat_move_allocation_keeps_keys_witness :
  keyed_by_base (allocationMap scenario_kernel) /\
  keyed_by_base (allocationMap (fst (nk_carat_move_allocation 0x1000 0x9000
                                       scenario_kernel))).
Proof.
  split; [exact scenario_keyed|].
  exact (nk_carat_move_allocation_keeps_keys 0x1000 0x9000 scenario_kernel scenario_keyed).
Defined.

(** Whatever the call returns, the records of the other allocations are
    untouched: a key that is neither the target nor the base of the entry
    found under the source maps to what it mapped to before. *)
Theorem nk_carat_move_allocation_other_keys (source target : Z) (k : kernel) (a : Z) :
  a <> target ->
  (forall entry, allocationMap k !! source = Some entry -> a <> entry_pointer entry) ->
  allocationMap (fst (nk_carat_move_allocation source target k)) !! a =
  allocationMap k !! a.
Proof.
  intros Ht Hp. destruct (world_stopped k) eqn:Hw.
  - unfold nk_carat_move_allocation. rewrite path_busy by exact Hw. reflexivity.
  - destruct (allocationMap k !! source) as [entry|] eqn:Hf.
    + rewrite (nk_carat_move_allocation_found source target k entry Hw Hf).
      cbn [fst allocationMap]. specialize (Hp entry eq_refl).
      rewrite lookup_delete_ne by congruence. apply lookup_insert_ne. congruence.
    + unfold nk_carat_move_allocation. rewrite path_not_found by assumption. reflexivity.
Qed.

(** A second allocation at [0x3000] stays where it is. *)
Lemma nk_carat_move_allocation_other_keys_witness :
  0x3000 <> 0x9000 /\
  (forall entry,
     <[0x3000 := mk_allocEntry 0x3000 16 []]> (allocationMap scenario_kernel) !! 0x1000
       = Some entry -> 0x3000 <> entry_pointer entry) /\
  allocationMap (fst (nk_carat_move_allocation 0x1000 0x9000
    (set_allocationMap (<[0x3000 := mk_allocEntry 0x3000 16 []]>
                          (allocationMap scenario_kernel)) scenario_kernel))) !! 0x3000
    = Some (mk_allocEntry 0x3000 16 []).
Proof.
  assert (Hne : 0x3000 <> 0x9000) by discriminate.
  assert (Hp : forall entry,
     <[0x3000 := mk_allocEntry 0x3000 16 []]> (allocationMap scenario_kernel) !! 0x1000
       = Some entry -> 0x3000 <> entry_pointer entry).
  { intros entry H. rewrite lookup_insert_ne in H by discriminate.
    cbn in H. apply lookup_singleton_Some in H as [_ <-]. discriminate. }
  split; [exact Hne|]. split; [exact Hp|].
  rewrite (nk_carat_move_allocation_other_keys 0x1000 0x9000
             (set_allocationMap (<[0x3000 := mk_allocEntry 0x3000 16 []]>
                                   (allocationMap scenario_kernel)) scenario_kernel)
             0x3000 Hne Hp).
  reflexivity.
Defined.

(** ** The degenerate move, at the scenario *)

Lemma degenerate_move_directory_witness :
  world_stopped scenario_kernel = false /\
  allocationMap scenario_kernel !! 0x1000 = Some scenario_entry /\
  entry_pointer scenario_entry = 0x1000 /\
  snd (nk_carat_move_allocation 0x1000 0x1000 scenario_kernel) = 0 /\
  allocationMap (fst (nk_carat_move_allocation 0x1000 0x1000 scenario_kernel)) !! 0x1000
    = None.
Proof.
  split; [reflexivity|]. split; [reflexivity|]. split; [reflexivity|].
  exact (degenerate_move_directory 0x1000 scenario_kernel scenario_entry
           eq_refl eq_refl eq_refl).
Defined.

Lemma degenerate_move_values_witness :
  world_stopped scenario_kernel = false /\
  allocationMap scenario_kernel !! 0x1000 = Some scenario_entry /\
  entry_pointer scenario_entry = 0x1000 /\
  addressable 0x1000 (entry_length scenario_entry) /\
  entry_length scenario_entry <= 2^63 /\
  slots_disjoint (entry_allocToEscapeMap scenario_entry) = true /\
  load64 (mem (fst (nk_carat_move_allocation 0x1000 0x1000 scenario_kernel))) 0x2000
    = load64 (mem scenario_kernel) 0x2000.
Proof.
  assert (Hs : addressable 0x1000 (entry_length scenario_entry))
    by exact (proj1 scenario_blocks).
  assert (Hl : entry_length scenario_entry <= 2^63) by (cbn; lia).
  repeat (split; [first [exact Hs | exact Hl | reflexivity]|]).
  destruct (degenerate_move_values 0x1000 scenario_kernel scenario_entry
              eq_refl eq_refl eq_refl Hs Hl eq_refl) as [He _].
  apply He. cbn. left.
Defined.

Lemma carat_update_entry_effect_witness :
  entry_pointer scenario_entry <> 0x9000 /\
  fst (carat_update_entry scenario_entry 0x9000 (allocationMap scenario_kernel)) !! 0x1000
    = None /\
  fst (carat_update_entry scenario_entry 0x9000 (allocationMap scenario_kernel)) !! 0x9000
    = Some (mk_allocEntry 0x9000 64 [0x2000; 0x2008]).
Proof.
  assert (Hne : entry_pointer scenario_entry <> 0x9000) by discriminate.
  destruct (carat_update_entry_effect scenario_entry 0x9000 (allocationMap scenario_kernel))
    as (_ & Hold & Hnew & _).
  split; [exact Hne|]. split; [exact Hold | exact (Hnew Hne)].
Defined.

(** A call while the world is already stopped. *)
Lemma nk_carat_move_allocation_result_witness :
  world_stopped (nk_sched_start_world scenario_kernel) = false /\
  world_stopped (fst (nk_sched_stop_world scenario_kernel)) = true /\
  nk_carat_move_allocation 0x1000 0x9000 (fst (nk_sched_stop_world scenario_kernel)) =
    (fst (nk_sched_stop_world scenario_kernel), -1) /\
  snd (nk_carat_move_allocation 0x1000 0x9000 (nk_sched_start_world scenario_kernel)) = 0.
Proof.
  split; [reflexivity|]. split; [reflexivity|]. split.
  - exact (proj2 (proj2 (nk_carat_move_allocation_result 0x1000 0x9000
                           (fst (nk_sched_stop_world scenario_kernel)))) eq_refl).
  - apply (proj1 (proj2 (nk_carat_move_allocation_result 0x1000 0x9000
                           (nk_sched_start_world scenario_kernel)))).
    split; [reflexivity|]. exists scenario_entry. reflexivity.
Defined.
